(** * redisplay/server: the rotation scheduler, the broadcast hub, the
      schedule evaluator and the BLE chunker, embedded from the JavaScript
      sources and checked against the written specification.

    Layout:
    - [JS]                 the few runtime primitives the sources rely on
    - [ViewSchema]         models/viewSchema.js      (isViewScheduled, parseRotateAt)
    - [ViewCharacteristic] services/ble/ViewCharacteristic.js (sendViewUpdate)
    - [ChannelManager]     services/redis.js + services/channelManager.js
    - [ViewManager]        services/channelConfig.js + services/viewManager.js *)

From Stdlib Require Import ZArith Lia Ascii String.
From Stdlib.Strings Require Import Byte.
From stdpp Require Import base option list gmap strings.

Local Open Scope string_scope.
Local Open Scope Z_scope.

#[local] Set Warnings "-clear-no-such-hyp".

(* ===================================================================== *)
(** ** JavaScript runtime primitives                                      *)
(* ===================================================================== *)

Module JS.

(** Truthiness of a string value: only the empty string is falsy.  An absent
    (undefined) string property is modelled by the empty string wherever the
    source only tests it for truthiness. *)
Definition truthy (s : string) : bool :=
  match s with
  | EmptyString => false
  | String _ _ => true
  end.

(** [s.split(sep)] for a one-character separator. *)
Fixpoint split (sep : ascii) (s : string) : list string :=
  match s with
  | EmptyString => [EmptyString]
  | String c rest =>
      if Ascii.eqb c sep then EmptyString :: split sep rest
      else match split sep rest with
           | [] => [String c EmptyString]
           | w :: ws => String c w :: ws
           end
  end.

Definition isDigit (c : ascii) : bool :=
  let n := nat_of_ascii c in (48 <=? n)%nat && (n <=? 57)%nat.

Definition digitValue (c : ascii) : Z := Z.of_nat (nat_of_ascii c) - 48.

Fixpoint allDigits (s : string) : bool :=
  match s with
  | EmptyString => true
  | String c rest => isDigit c && allDigits rest
  end.

Fixpoint digitsValue (acc : Z) (s : string) : Z :=
  match s with
  | EmptyString => acc
  | String c rest => digitsValue (10 * acc + digitValue c) rest
  end.

(** [Number(s)] on the decimal fragment of ToNumber: the empty string is 0, a
    run of decimal digits is its value.  [None] stands for NaN.  Every string
    that the schema's [timeRegex] admits splits into such parts; strings with
    signs, blanks, fractions or exponents are outside this fragment and are
    given NaN here. *)
Definition Number (s : string) : option Z :=
  if allDigits s then Some (digitsValue 0 s) else None.

(** [parseInt(s, 10)] on a non-empty run of decimal digits (the only
    arguments the sources pass, after a [\d+] regex group matched). *)
Definition parseInt (s : string) : option Z :=
  if truthy s && allDigits s then Some (digitsValue 0 s) else None.

Definition lowerAscii (c : ascii) : ascii :=
  let n := nat_of_ascii c in
  if (65 <=? n)%nat && (n <=? 90)%nat then ascii_of_nat (n + 32) else c.

(** [s.toLowerCase()] on the ASCII letters. *)
Fixpoint toLowerCase (s : string) : string :=
  match s with
  | EmptyString => EmptyString
  | String c rest => String (lowerAscii c) (toLowerCase rest)
  end.

(** [l.includes(x)] on an array of strings. *)
Definition includes (l : list string) (x : string) : bool :=
  existsb (String.eqb x) l.

(** [l.indexOf(x)]: the first index holding [x], or -1. *)
Fixpoint indexOf (l : list string) (x : string) : Z :=
  match l with
  | [] => -1
  | y :: l' => if String.eqb y x then 0
               else let i := indexOf l' x in if i <? 0 then -1 else i + 1
  end.

(** What the sources read from a [Date]: the epoch milliseconds and the
    local calendar fields. *)
Record Date := mkDate {
  getTime : Z;
  getDay : nat;
  getHours : Z;
  getMinutes : Z;
  getSeconds : Z;
  getMilliseconds : Z
}.

Lemma includes_spec l x : includes l x = true <-> x ∈ l.
Proof.
  unfold includes. rewrite existsb_exists. split.
  - intros (y & Hin & Heq). apply String.eqb_eq in Heq. subst.
    by apply list_elem_of_In.
  - intros Hin. exists x. split; [by apply list_elem_of_In | apply String.eqb_refl].
Qed.

Lemma truthy_spec s : truthy s = true <-> s <> "".
Proof. destruct s; simpl; split; congruence. Qed.

End JS.

(* ===================================================================== *)
(** ** models/viewSchema.js                                               *)
(* ===================================================================== *)

Module ViewSchema.
Import JS.

(** [{ from: "HH:MM", to: "HH:MM" }]. *)
Record HourRange := mkRange { range_from : string; range_to : string }.

(** [schedule.hours] is either one range object or an array of them. *)
Inductive Hours :=
| HoursObject (r : HourRange)
| HoursArray (rs : list HourRange).

Record Schedule := mkSchedule {
  days : option (list string);
  hours : option Hours
}.

Record Metadata := mkMetadata {
  type : string;
  rotateAfter : option Z;
  rotateAt : option string;
  schedule : option Schedule
}.

Record View := mkView {
  view_id : string;
  metadata : option Metadata;
  data : list (string * string);
  created_at : Z
}.

Definition dayNames : list string :=
  ["sun"; "mon"; "tue"; "wed"; "thu"; "fri"; "sat"].

(** [const [h, m] = s.split(':').map(Number); h * 60 + m]; a missing part is
    [undefined] and makes the sum NaN. *)
Definition toMinutes (s : string) : option Z :=
  let parts := Number <$> split ":" s in
  match parts with
  | Some h :: Some m :: _ => Some (h * 60 + m)
  | _ => None
  end.

(** One turn of the loop over [hourRanges]: [false] is [continue] or a failed
    test, [true] is the [break] with [withinAnyRange = true].  Comparisons
    with NaN are false. *)
Definition rangeMatches (currentMinutes : Z) (range : HourRange) : bool :=
  if negb (truthy (range_from range)) || negb (truthy (range_to range)) then false
  else
    match toMinutes (range_from range), toMinutes (range_to range) with
    | Some fromMinutes, Some toMinutes_ =>
        if fromMinutes >? toMinutes_
        then (currentMinutes >=? fromMinutes) || (currentMinutes <? toMinutes_)
        else (currentMinutes >=? fromMinutes) && (currentMinutes <? toMinutes_)
    | _, _ => false
    end.

Definition hourRanges (h : Hours) : list HourRange :=
  match h with
  | HoursObject r => [r]
  | HoursArray rs => rs
  end.

Definition currentMinutes (now : Date) : Z := getHours now * 60 + getMinutes now.

Definition dayScheduled (ds : list string) (now : Date) : bool :=
  match dayNames !! getDay now with
  | Some currentDay => includes (toLowerCase <$> ds) currentDay
  | None => false
  end.

Definition isViewScheduled (view : View) (now : Date) : bool :=
  match metadata view with
  | None => true
  | Some md =>
      match schedule md with
      | None => true
      | Some sch =>
          let daysOk :=
            match days sch with
            | Some (d :: ds) => dayScheduled (d :: ds) now
            | _ => true
            end in
          if negb daysOk then false
          else
            match hours sch with
            | Some h => existsb (rangeMatches (currentMinutes now)) (hourRanges h)
            | None => true
            end
      end
  end.

(** [/^(\d{1,2}):(\d{2})(?::(\d{2}))?$/]: the three capture groups, the
    third being ["0"] when the seconds are left out ([timeMatch[3] || '0']). *)
Definition nDigits (lo hi : nat) (s : string) : bool :=
  allDigits s && (lo <=? String.length s)%nat && (String.length s <=? hi)%nat.

Definition timeOfDayMatch (s : string) : option (string * string * string) :=
  match split ":" s with
  | [h; m] => if nDigits 1 2 h && nDigits 2 2 m then Some (h, m, "0") else None
  | [h; m; sec] =>
      if nDigits 1 2 h && nDigits 2 2 m && nDigits 2 2 sec then Some (h, m, sec) else None
  | _ => None
  end.

Fixpoint splitLast (s : string) : option (string * ascii) :=
  match s with
  | EmptyString => None
  | String c EmptyString => Some (EmptyString, c)
  | String c rest =>
      match splitLast rest with
      | Some (init, l) => Some (String c init, l)
      | None => None
      end
  end.

(** [/^\+?(\d+)([smhd])$/i]: the digits and the unit, lower-cased. *)
Definition relativeMatch (s : string) : option (string * string) :=
  let body := match s with
              | String "+" rest => rest
              | _ => s
              end in
  match splitLast body with
  | Some (digits, u) =>
      if truthy digits && allDigits digits then Some (digits, String (lowerAscii u) EmptyString)
      else None
  | None => None
  end.

Definition multipliers (unit_ : string) : option Z :=
  if String.eqb unit_ "s" then Some 1000
  else if String.eqb unit_ "m" then Some (60 * 1000)
  else if String.eqb unit_ "h" then Some (60 * 60 * 1000)
  else if String.eqb unit_ "d" then Some (24 * 60 * 60 * 1000)
  else None.

(** Milliseconds since local midnight. *)
Definition millisOfDay (h m s ms : Z) : Z := ((h * 60 + m) * 60 + s) * 1000 + ms.

(** [parseRotateAt(rotateAt)], with the clock reading [now] made explicit;
    [None] is [null].  [target.setHours(h, m, s, 0)] and
    [target.setDate(target.getDate() + 1)] are computed on a civil day of 24
    hours. *)
Definition parseRotateAt (rotateAt : string) (now : Date) : option Z :=
  if negb (truthy rotateAt) then None
  else
    let relative :=
      match relativeMatch rotateAt with
      | Some (digits, unit_) =>
          value ← parseInt digits; mult ← multipliers unit_; Some (value * mult)
      | None => None
      end in
    match timeOfDayMatch rotateAt with
    | Some (h, m, s) =>
        match parseInt h, parseInt m, parseInt s with
        | Some hours_, Some minutes, Some seconds =>
            if (0 <=? hours_) && (hours_ <? 24) && (0 <=? minutes) && (minutes <? 60)
               && (0 <=? seconds) && (seconds <? 60)
            then
              let nowMs := millisOfDay (getHours now) (getMinutes now)
                                       (getSeconds now) (getMilliseconds now) in
              let targetMs := millisOfDay hours_ minutes seconds 0 in
              if targetMs <=? nowMs then Some (targetMs + 24 * 60 * 60 * 1000 - nowMs)
              else Some (targetMs - nowMs)
            else relative
        | _, _, _ => relative
        end
    | None => relative
    end.

(** The schedule rule of a view, when it has one. *)
Definition scheduleOf (view : View) : option Schedule :=
  md ← metadata view; schedule md.

(** *** The eligibility predicate, as the specification words it *)

(** The weekday of [now], in three-letter form, is one of the listed days
    compared without regard to case. *)
Definition weekdayListed (ds : list string) (now : Date) : Prop :=
  ∃ today d, dayNames !! getDay now = Some today ∧ d ∈ ds ∧ toLowerCase d = today.

Definition daysHold (sch : Schedule) (now : Date) : Prop :=
  match days sch with
  | Some (d :: ds) => weekdayListed (d :: ds) now
  | _ => True
  end.

(** The bounds of a range in minutes of the day. *)
Definition rangeBounds (r : HourRange) : option (Z * Z) :=
  if truthy (range_from r) && truthy (range_to r) then
    f ← toMinutes (range_from r); t ← toMinutes (range_to r); Some (f, t)
  else None.

Definition minuteInRange (m : Z) (r : HourRange) : Prop :=
  ∃ f t, rangeBounds r = Some (f, t) ∧
         ((f > t ∧ (m >= f ∨ m < t)) ∨ (f <= t ∧ f <= m < t)).

Definition hoursHold (sch : Schedule) (now : Date) : Prop :=
  match hours sch with
  | Some h => ∃ r, r ∈ hourRanges h ∧ minuteInRange (currentMinutes now) r
  | None => True
  end.

Lemma dayScheduled_spec ds now :
  dayScheduled ds now = true <-> weekdayListed ds now.
Proof.
  unfold dayScheduled, weekdayListed.
  destruct (dayNames !! getDay now) as [today|] eqn:Hday.
  - rewrite includes_spec, list_elem_of_fmap. split.
    + intros (d & -> & Hd). by exists (toLowerCase d), d.
    + intros (today' & d & [= <-] & Hd & Hlow). by exists d.
  - split; [done |]. by intros (? & ? & ? & _).
Qed.

Lemma rangeMatches_spec m r :
  rangeMatches m r = true <-> minuteInRange m r.
Proof.
  unfold rangeMatches, minuteInRange, rangeBounds.
  destruct (truthy (range_from r)), (truthy (range_to r)); simpl;
    try (split; [done | by intros (? & ? & ? & _)]).
  destruct (toMinutes (range_from r)) as [f|], (toMinutes (range_to r)) as [t|];
    simpl; try (split; [done | by intros (? & ? & ? & _)]).
  split.
  - intros H. exists f, t. split; [done |].
    destruct (f >? t) eqn:Hgt.
    + left. apply orb_true_iff in H. lia.
    + right. apply andb_true_iff in H. lia.
  - intros (f' & t' & [= <- <-] & H).
    destruct (f >? t) eqn:Hgt.
    + apply orb_true_iff. lia.
    + apply andb_true_iff. lia.
Qed.


(** *** validateView *)

(** A character whose code lies in [[lo, hi]]. *)
Definition charIn (lo hi : nat) (c : ascii) : bool :=
  let n := nat_of_ascii c in (lo <=? n)%nat && (n <=? hi)%nat.

(** [/^([0-1]?[0-9]|2[0-3]):[0-5][0-9]$/.test(s)]. *)
Definition timeRegex_test (s : string) : bool :=
  match s with
  | String h1 (String c (String m1 (String m2 EmptyString))) =>
      charIn 48 57 h1 && Ascii.eqb c ":" && charIn 48 53 m1 && charIn 48 57 m2
  | String h1 (String h2 (String c (String m1 (String m2 EmptyString)))) =>
      (charIn 48 49 h1 && charIn 48 57 h2 || Ascii.eqb h1 "2" && charIn 48 51 h2)
      && Ascii.eqb c ":" && charIn 48 53 m1 && charIn 48 57 m2
  | _ => false
  end.

(** [{ valid: true }] or [{ valid: false, error }]. *)
Inductive Validation :=
| Valid
| Invalid (error : string).

Definition validDays : list string :=
  ["mon"; "tue"; "wed"; "thu"; "fri"; "sat"; "sun"].

(** The double quote, for the error messages. *)
Definition dq : string := String (ascii_of_nat 34) EmptyString.

(** A loop that returns at the first element with an error. *)
Fixpoint firstError {A : Type} (check : A -> option string) (l : list A) : option string :=
  match l with
  | [] => None
  | x :: rest =>
      match check x with
      | Some e => Some e
      | None => firstError check rest
      end
  end.

Definition checkDay (day : string) : option string :=
  if includes validDays (toLowerCase day) then None
  else Some ("Invalid day in schedule.days: " ++ day
             ++ ". Must be one of: mon, tue, wed, thu, fri, sat, sun").

(** One range of an array of ranges. *)
Definition checkArrayRange (range : HourRange) : option string :=
  if negb (truthy (range_from range)) || negb (truthy (range_to range)) then
    Some ("Each item in metadata.schedule.hours array must have " ++ dq ++ "from" ++ dq
          ++ " and " ++ dq ++ "to" ++ dq ++ " properties")
  else if negb (timeRegex_test (range_from range)) then
    Some ("Invalid " ++ dq ++ "from" ++ dq ++ " time in schedule.hours: " ++ range_from range
          ++ ". Must be in HH:MM format (e.g., " ++ dq ++ "09:00" ++ dq ++ ")")
  else if negb (timeRegex_test (range_to range)) then
    Some ("Invalid " ++ dq ++ "to" ++ dq ++ " time in schedule.hours: " ++ range_to range
          ++ ". Must be in HH:MM format (e.g., " ++ dq ++ "17:00" ++ dq ++ ")")
  else None.

(** The single range of the legacy format. *)
Definition checkObjectRange (range : HourRange) : option string :=
  if negb (truthy (range_from range)) || negb (truthy (range_to range)) then
    Some ("metadata.schedule.hours must have both " ++ dq ++ "from" ++ dq ++ " and "
          ++ dq ++ "to" ++ dq ++ " properties")
  else if negb (timeRegex_test (range_from range)) then
    Some ("metadata.schedule.hours.from must be in HH:MM format (e.g., "
          ++ dq ++ "09:00" ++ dq ++ ")")
  else if negb (timeRegex_test (range_to range)) then
    Some ("metadata.schedule.hours.to must be in HH:MM format (e.g., "
          ++ dq ++ "17:00" ++ dq ++ ")")
  else None.

Definition checkSchedule (sch : Schedule) : option string :=
  match firstError checkDay (default [] (days sch)) with
  | Some e => Some e
  | None =>
      match hours sch with
      | Some (HoursArray rs) => firstError checkArrayRange rs
      | Some (HoursObject r) => checkObjectRange r
      | None => None
      end
  end.

(** [validateView(view)] on a view object: the [typeof] tests hold by the
    types of the record fields. *)
Definition validateView (view : View) : Validation :=
  match metadata view with
  | None => Invalid "View metadata is required and must be an object"
  | Some md =>
      if negb (truthy (type md)) then
        Invalid "View metadata.type is required and must be a string"
      else if match rotateAfter md with Some d => d <? 0 | None => false end then
        Invalid "metadata.rotateAfter must be a non-negative number"
      else
        match schedule md with
        | Some sch =>
            match checkSchedule sch with
            | Some e => Invalid e
            | None => Valid
            end
        | None => Valid
        end
  end.

(** *** Characters and time strings *)

Fixpoint noColon (s : string) : bool :=
  match s with
  | EmptyString => true
  | String c rest => negb (Ascii.eqb c ":") && noColon rest
  end.

Lemma charIn_bounds lo hi c :
  charIn lo hi c = true ->
  Z.of_nat lo - 48 <= digitValue c <= Z.of_nat hi - 48 ∧ (lo <= nat_of_ascii c <= hi)%nat.
Proof.
  unfold charIn, digitValue. cbv zeta. rewrite andb_true_iff, !Nat.leb_le. lia.
Qed.

Lemma charIn_weaken lo hi lo' hi' c :
  (lo' <= lo)%nat -> (hi <= hi')%nat -> charIn lo hi c = true -> charIn lo' hi' c = true.
Proof.
  unfold charIn. cbv zeta. rewrite !andb_true_iff, !Nat.leb_le. lia.
Qed.

Lemma charIn_not_colon lo hi c :
  (hi < 58)%nat -> charIn lo hi c = true -> Ascii.eqb c ":" = false.
Proof.
  intros Hhi Hc. apply charIn_bounds in Hc as [_ Hc]. apply Ascii.eqb_neq.
  intros ->. vm_compute in Hc. lia.
Qed.

Lemma isDigit_charIn c : isDigit c = charIn 48 57 c.
Proof. reflexivity. Qed.

Lemma isDigit_of_charIn lo hi c :
  (48 <= lo)%nat -> (hi <= 57)%nat -> charIn lo hi c = true -> isDigit c = true.
Proof. intros ? ? H. rewrite isDigit_charIn. by apply (charIn_weaken lo hi). Qed.

Lemma allDigits_noColon s : allDigits s = true -> noColon s = true.
Proof.
  induction s as [|c s IH]; simpl; [done |]. rewrite andb_true_iff. intros [Hc Hs].
  rewrite isDigit_charIn in Hc. rewrite (charIn_not_colon 48 57 c) by (done || lia).
  by apply IH.
Qed.

Lemma split_noColon s : noColon s = true -> split ":" s = [s].
Proof.
  induction s as [|c s IH]; simpl; [done |]. rewrite andb_true_iff, negb_true_iff.
  intros [-> Hs]. by rewrite IH.
Qed.

Lemma split_colon h rest :
  noColon h = true -> split ":" (h ++ String ":" rest) = h :: split ":" rest.
Proof.
  induction h as [|c h IH]; simpl; [done |]. rewrite andb_true_iff, negb_true_iff.
  intros [-> Hh]. by rewrite IH.
Qed.

Lemma Number_digit c :
  isDigit c = true -> Number (String c EmptyString) = Some (digitValue c).
Proof. intros H. unfold Number. simpl. rewrite H. simpl. f_equal. Qed.

Lemma Number_two_digits a b :
  isDigit a = true -> isDigit b = true ->
  Number (String a (String b EmptyString)) = Some (10 * digitValue a + digitValue b).
Proof.
  intros Ha Hb. unfold Number. simpl. rewrite Ha, Hb. simpl. f_equal; lia.
Qed.

(** A time string that [timeRegex] admits is a minute of the day for
    [toMinutes]. *)
Lemma timeRegex_minutes s :
  timeRegex_test s = true ->
  truthy s = true ∧ exists m, toMinutes s = Some m ∧ 0 <= m < 1440.
Proof.
  intros H. split; [by destruct s |].
  destruct s as [|h1 [|c2 [|c3 [|c4 [|c5 [|c6 s]]]]]]; try discriminate.
  - (* H:MM *)
    simpl in H. rewrite !andb_true_iff in H. destruct H as [[[Hh Hc] Hm1] Hm2].
    apply Ascii.eqb_eq in Hc. subst c2.
    unfold toMinutes.
    change (String h1 (String ":" (String c3 (String c4 EmptyString))))
      with (String h1 EmptyString ++ String ":" (String c3 (String c4 EmptyString))).
    rewrite split_colon
      by (simpl; by rewrite (charIn_not_colon 48 57 h1) by (done || lia)).
    rewrite split_noColon
      by (simpl; by rewrite (charIn_not_colon 48 53 c3), (charIn_not_colon 48 57 c4)
                    by (done || lia)).
    cbn [fmap list_fmap].
    rewrite Number_digit by done.
    rewrite Number_two_digits
      by (done || (apply (isDigit_of_charIn 48 53); [lia | lia | done])).
    eexists. split; [reflexivity |].
    apply charIn_bounds in Hh as [Hh _], Hm1 as [Hm1 _], Hm2 as [Hm2 _]. lia.
  - (* HH:MM *)
    simpl in H. rewrite !andb_true_iff in H. destruct H as [[[Hh Hc] Hm1] Hm2].
    apply Ascii.eqb_eq in Hc. subst c3.
    assert (Hhh : isDigit h1 = true ∧ isDigit c2 = true
                  ∧ 0 <= 10 * digitValue h1 + digitValue c2 <= 23).
    { apply orb_true_iff in Hh as [Hh | Hh]; apply andb_true_iff in Hh as [Ha Hb].
      - split; [by apply (isDigit_of_charIn 48 49); [lia | lia |] |]. split; [done |].
        apply charIn_bounds in Ha as [Ha _], Hb as [Hb _]. lia.
      - apply Ascii.eqb_eq in Ha. subst h1. split; [done |].
        split; [by apply (isDigit_of_charIn 48 51); [lia | lia |] |].
        apply charIn_bounds in Hb as [Hb _]. change (digitValue "2") with 2. lia. }
    destruct Hhh as (Hd1 & Hd2 & Hrange).
    unfold toMinutes.
    change (String h1 (String c2 (String ":" (String c4 (String c5 EmptyString)))))
      with (String h1 (String c2 EmptyString) ++ String ":" (String c4 (String c5 EmptyString))).
    rewrite split_colon
      by (simpl; by rewrite (charIn_not_colon 48 57 h1), (charIn_not_colon 48 57 c2)
                    by (done || lia)).
    rewrite split_noColon
      by (simpl; by rewrite (charIn_not_colon 48 53 c4), (charIn_not_colon 48 57 c5)
                    by (done || lia)).
    cbn [fmap list_fmap].
    rewrite !Number_two_digits
      by (done || (apply (isDigit_of_charIn 48 53); [lia | lia | done])).
    eexists. split; [reflexivity |].
    apply charIn_bounds in Hm1 as [Hm1 _], Hm2 as [Hm2 _]. lia.
Qed.

Lemma firstError_None {A} (check : A -> option string) l :
  firstError check l = None -> forall x, x ∈ l -> check x = None.
Proof.
  induction l as [|y l IH]; simpl; intros H x Hx; [by apply elem_of_nil in Hx |].
  destruct (check y) eqn:Hy; [done |].
  apply elem_of_cons in Hx as [-> | Hx]; auto.
Qed.

Lemma checkRange_bounds r :
  checkArrayRange r = None ∨ checkObjectRange r = None ->
  exists f t, rangeBounds r = Some (f, t) ∧ 0 <= f < 1440 ∧ 0 <= t < 1440.
Proof.
  assert (Hgen : truthy (range_from r) = true -> truthy (range_to r) = true ->
                 timeRegex_test (range_from r) = true -> timeRegex_test (range_to r) = true ->
                 exists f t, rangeBounds r = Some (f, t) ∧ 0 <= f < 1440 ∧ 0 <= t < 1440).
  { intros Hf Ht Hrf Hrt. unfold rangeBounds. rewrite Hf, Ht. simpl.
    apply timeRegex_minutes in Hrf as [_ (f & -> & Hfb)].
    apply timeRegex_minutes in Hrt as [_ (t & -> & Htb)]. simpl. by exists f, t. }
  unfold checkArrayRange, checkObjectRange.
  destruct (truthy (range_from r)), (truthy (range_to r)); simpl;
    try (intros [? | ?]; discriminate).
  destruct (timeRegex_test (range_from r)), (timeRegex_test (range_to r)); simpl;
    try (intros [? | ?]; discriminate).
  intros _. by apply Hgen.
Qed.

(** X1. A view that [validateView] accepts has metadata with a non-empty
    type and a non-negative [rotateAfter]; every day of its schedule is a
    weekday name up to case, and every hour range of its schedule has both
    bounds, each a minute of the day (0 to 1439) for the schedule
    evaluator. *)
Theorem validateView_sound (view : View) :
  validateView view = Valid ->
  exists md,
    metadata view = Some md
    ∧ type md <> ""
    ∧ (forall d, rotateAfter md = Some d -> 0 <= d)
    ∧ (forall sch, schedule md = Some sch ->
         (forall ds day, days sch = Some ds -> day ∈ ds -> toLowerCase day ∈ dayNames)
         ∧ (forall h r, hours sch = Some h -> r ∈ hourRanges h ->
              exists f t, rangeBounds r = Some (f, t) ∧ 0 <= f < 1440 ∧ 0 <= t < 1440)).
Proof.
  unfold validateView. destruct (metadata view) as [md|]; [| done].
  destruct (truthy (type md)) eqn:Hty; simpl; [| done].
  destruct (match rotateAfter md with Some d => d <? 0 | None => false end) eqn:Hra; [done |].
  intros Hvalid. exists md. split; [done |]. split; [by apply truthy_spec |].
  split.
  { intros d Hd. rewrite Hd in Hra. lia. }
  intros sch Hsch. rewrite Hsch in Hvalid.
  destruct (checkSchedule sch) as [e|] eqn:Hcheck; [done |].
  unfold checkSchedule in Hcheck.
  destruct (firstError checkDay (default [] (days sch))) eqn:Hdays; [done |].
  split.
  - intros ds day Hds Hday. rewrite Hds in Hdays. simpl in Hdays.
    pose proof (firstError_None _ _ Hdays day Hday) as Hc. unfold checkDay in Hc.
    destruct (includes validDays (toLowerCase day)) eqn:Hin; [| done].
    apply includes_spec in Hin. unfold validDays in Hin. unfold dayNames. set_solver.
  - intros h r Hh Hr. rewrite Hh in Hcheck. apply checkRange_bounds.
    destruct h as [r0 | rs]; simpl in Hr.
    + apply list_elem_of_singleton in Hr as ->. by right.
    + left. by apply (firstError_None _ _ Hcheck).
Qed.

Lemma validateView_sound_witness :
  exists f t, rangeBounds (mkRange "9:30" "23:59") = Some (f, t)
              ∧ 0 <= f < 1440 ∧ 0 <= t < 1440.
Proof.
  destruct (validateView_sound
              (mkView "a" (Some (mkMetadata "text" (Some 500) None
                 (Some (mkSchedule (Some ["Mon"])
                                   (Some (HoursArray [mkRange "9:30" "23:59"]))))))
                      [] 0) eq_refl) as (md & Hmd & _ & _ & Hsch).
  injection Hmd as <-.
  destruct (Hsch _ eq_refl) as [_ Hranges].
  apply (Hranges _ _ eq_refl). set_solver.
Defined.

(** *** Hour ranges *)

(** X2. Swapping the bounds of a range with two different bounds gives the
    complementary range: at every minute exactly one of the two matches (so
    22:00-06:00 is on exactly when 06:00-22:00 is off). *)
Theorem rangeMatches_swap (m : Z) (r : HourRange) (f t : Z) :
  rangeBounds r = Some (f, t) ->
  f <> t ->
  rangeMatches m (mkRange (range_to r) (range_from r)) = negb (rangeMatches m r).
Proof.
  unfold rangeBounds, rangeMatches. simpl.
  destruct (truthy (range_from r)), (truthy (range_to r)); simpl; try done.
  destruct (toMinutes (range_from r)) as [f'|], (toMinutes (range_to r)) as [t'|];
    simpl; try done.
  intros [= -> ->] Hne.
  destruct (f >? t) eqn:H1, (t >? f) eqn:H2; try lia;
    destruct (m >=? f) eqn:?, (m <? t) eqn:?, (m >=? t) eqn:?, (m <? f) eqn:?;
    simpl; try done; lia.
Qed.

Lemma rangeMatches_swap_witness :
  rangeMatches 1380 (mkRange "06:00" "22:00") = negb (rangeMatches 1380 (mkRange "22:00" "06:00")).
Proof.
  apply (rangeMatches_swap 1380 (mkRange "22:00" "06:00") 1320 360); [reflexivity | lia].
Defined.

(** X3. A view whose schedule has an hours entry in which no range has two
    different bounds (an empty list of ranges, ranges with equal bounds, or
    ranges with a missing or unreadable bound) is eligible at no time. *)
Theorem degenerate_hours_never_scheduled (view : View) (sch : Schedule) (h : Hours)
    (now : Date) :
  scheduleOf view = Some sch ->
  hours sch = Some h ->
  (forall r f t, r ∈ hourRanges h -> rangeBounds r = Some (f, t) -> f = t) ->
  isViewScheduled view now = false.
Proof.
  unfold scheduleOf, isViewScheduled. intros Hsch Hh Hdeg.
  destruct (metadata view) as [md|]; simpl in Hsch; [| done].
  rewrite Hsch, Hh.
  assert (Hno : existsb (rangeMatches (currentMinutes now)) (hourRanges h) = false).
  { apply not_true_is_false. rewrite existsb_exists. intros (r & Hin & Hr).
    apply rangeMatches_spec in Hr as (f & t & Hb & Hm).
    assert (f = t) by (eapply Hdeg; [by apply list_elem_of_In | done]). lia. }
  rewrite Hno. by destruct (negb _).
Qed.

Lemma degenerate_hours_never_scheduled_witness :
  isViewScheduled
    (mkView "a" (Some (mkMetadata "text" None None
                         (Some (mkSchedule None (Some (HoursObject (mkRange "08:00" "08:00")))))))
            [] 0)
    (mkDate 0 1 8 0 0 0) = false.
Proof.
  eapply degenerate_hours_never_scheduled; [reflexivity | reflexivity |].
  intros r f t Hr Hb. apply list_elem_of_singleton in Hr. subst r.
  vm_compute in Hb. by injection Hb as <- <-.
Defined.

(** *** parseRotateAt *)

(** A clock reading with its fields in range. *)
Definition validClock (now : Date) : Prop :=
  0 <= getHours now < 24 ∧ 0 <= getMinutes now < 60
  ∧ 0 <= getSeconds now < 60 ∧ 0 <= getMilliseconds now < 1000.

(** The relative reading of [rotateAt], as [parseRotateAt] computes it. *)
Definition relativeDelay (rotateAt_ : string) : option Z :=
  match relativeMatch rotateAt_ with
  | Some (digits, unit_) =>
      value ← parseInt digits; mult ← multipliers unit_; Some (value * mult)
  | None => None
  end.

Lemma splitLast_some c s :
  exists init l, splitLast (String c s) = Some (init, l)
                 ∧ String c s = init ++ String l EmptyString.
Proof.
  revert c. induction s as [|c' s IH]; intros c.
  - by exists EmptyString, c.
  - destruct (IH c') as (init & l & Hs & Heq). exists (String c init), l. split.
    + change (splitLast (String c (String c' s)))
        with (match splitLast (String c' s) with
              | Some (init, l) => Some (String c init, l)
              | None => None
              end).
      by rewrite Hs.
    + by rewrite Heq.
Qed.

Lemma splitLast_app s :
  splitLast s = None
  ∨ (exists init l, splitLast s = Some (init, l) ∧ s = init ++ String l EmptyString).
Proof. destruct s as [|c s]; [by left | right; apply splitLast_some]. Qed.

Lemma splitLast_snoc s l : splitLast (s ++ String l EmptyString) = Some (s, l).
Proof.
  induction s as [|c s IH]; [done |]. simpl. simpl in IH. rewrite IH.
  destruct (s ++ String l EmptyString) eqn:Hs; [| done].
  by destruct s.
Qed.

Lemma noColon_app s1 s2 : noColon (s1 ++ s2) = noColon s1 && noColon s2.
Proof. induction s1 as [|c s1 IH]; simpl; [done |]. by rewrite IH, andb_assoc. Qed.

Lemma multipliers_not_colon u k :
  multipliers (String (lowerAscii u) EmptyString) = Some k -> Ascii.eqb u ":" = false.
Proof.
  intros H. apply Ascii.eqb_neq. intros ->. vm_compute in H. discriminate.
Qed.

(** A string with a relative reading has no colon. *)
Lemma relativeDelay_noColon s d : relativeDelay s = Some d -> noColon s = true.
Proof.
  unfold relativeDelay, relativeMatch.
  set (body := match s with String "+" rest => rest | _ => s end).
  assert (Hbody : noColon body = true -> noColon s = true).
  { subst body. destruct s as [|c rest]; [done |].
    destruct (Ascii.eqb c "+") eqn:Hc.
    - apply Ascii.eqb_eq in Hc. subst c. done.
    - intros H. replace (match String c rest with String "+" r => r | _ => String c rest end)
        with (String c rest) in H; [done |].
      apply Ascii.eqb_neq in Hc.
      destruct c as [[] [] [] [] [] [] [] []]; try reflexivity; congruence. }
  destruct (splitLast_app body) as [-> | (init & l & -> & Heq)]; [done |].
  destruct (truthy init && allDigits init) eqn:Hd; [| done].
  apply andb_true_iff in Hd as [_ Hd].
  destruct (parseInt init) as [v|]; simpl; [| done].
  destruct (multipliers (String (lowerAscii l) EmptyString)) as [k|] eqn:Hk; simpl; [| done].
  intros _. apply Hbody. rewrite Heq, noColon_app. simpl.
  rewrite (allDigits_noColon _ Hd), (multipliers_not_colon _ _ Hk). done.
Qed.

Lemma parseRotateAt_unfold s now :
  parseRotateAt s now
  = if negb (truthy s) then None
    else match timeOfDayMatch s with
         | Some (h, m, sec) =>
             match parseInt h, parseInt m, parseInt sec with
             | Some hours_, Some minutes, Some seconds =>
                 if (0 <=? hours_) && (hours_ <? 24) && (0 <=? minutes) && (minutes <? 60)
                    && (0 <=? seconds) && (seconds <? 60)
                 then
                   let nowMs := millisOfDay (getHours now) (getMinutes now)
                                            (getSeconds now) (getMilliseconds now) in
                   let targetMs := millisOfDay hours_ minutes seconds 0 in
                   if targetMs <=? nowMs then Some (targetMs + 24 * 60 * 60 * 1000 - nowMs)
                   else Some (targetMs - nowMs)
                 else relativeDelay s
             | _, _, _ => relativeDelay s
             end
         | None => relativeDelay s
         end.
Proof. reflexivity. Qed.

(** X4. For a clock-time string (H:MM, HH:MM or with seconds) the delay of
    [parseRotateAt], when there is one, is the time to the next occurrence of
    that clock time: more than 0 and at most 24 hours. *)
Theorem parseRotateAt_clock_bounds (s : string) (now : Date) (d : Z) :
  validClock now ->
  is_Some (timeOfDayMatch s) ->
  parseRotateAt s now = Some d ->
  0 < d <= 24 * 60 * 60 * 1000.
Proof.
  intros (Hh & Hm & Hs & Hms) [[[h m] sec] Hmatch]. rewrite parseRotateAt_unfold, Hmatch.
  assert (Hrel : relativeDelay s = Some d -> 0 < d <= 24 * 60 * 60 * 1000).
  { intros Hr. apply relativeDelay_noColon, split_noColon in Hr.
    unfold timeOfDayMatch in Hmatch. by rewrite Hr in Hmatch. }
  destruct (negb (truthy s)); [done |].
  destruct (parseInt h) as [hv|]; [| done].
  destruct (parseInt m) as [mv|]; [| done].
  destruct (parseInt sec) as [sv|]; [| done].
  destruct (0 <=? hv) eqn:?, (hv <? 24) eqn:?, (0 <=? mv) eqn:?, (mv <? 60) eqn:?,
           (0 <=? sv) eqn:?, (sv <? 60) eqn:?; simpl; try done.
  unfold millisOfDay.
  match goal with
  | |- context [if ?a <=? ?b then _ else _] => destruct (Z.leb_spec a b)
  end; intros [= Hd]; lia.
Qed.

Lemma parseRotateAt_clock_bounds_witness :
  0 < 53985000 <= 24 * 60 * 60 * 1000.
Proof.
  apply (parseRotateAt_clock_bounds "14:30" (mkDate 0 2 23 30 15 0) 53985000).
  - repeat split; simpl; lia.
  - by eexists.
  - reflexivity.
Defined.

Lemma relativeMatch_digits_unit digits u :
  truthy digits = true -> allDigits digits = true ->
  relativeMatch (digits ++ String u EmptyString)
  = Some (digits, String (lowerAscii u) EmptyString)
  ∧ relativeMatch (String "+" (digits ++ String u EmptyString))
    = Some (digits, String (lowerAscii u) EmptyString).
Proof.
  intros Ht Hd.
  assert (Hbody : (let s := digits ++ String u EmptyString in
                   match s with String "+" rest => rest | _ => s end)
                  = digits ++ String u EmptyString).
  { destruct digits as [|c ds]; [done |]. simpl in Hd. apply andb_true_iff in Hd as [Hc _].
    rewrite isDigit_charIn in Hc. apply charIn_bounds in Hc as [_ Hc]. simpl.
    destruct c as [[] [] [] [] [] [] [] []]; try reflexivity. vm_compute in Hc. lia. }
  unfold relativeMatch. cbv zeta in Hbody. rewrite Hbody. rewrite splitLast_snoc.
  by rewrite Ht, Hd.
Qed.

(** X5. A relative [rotateAt] (digits and one of s, m, h, d in either case)
    gives the number times the unit in milliseconds, whatever the clock
    reads, and a leading plus sign changes nothing. *)
Theorem parseRotateAt_relative (digits : string) (u : ascii) (k : Z) (now : Date) :
  truthy digits = true ->
  allDigits digits = true ->
  multipliers (String (lowerAscii u) EmptyString) = Some k ->
  parseRotateAt (digits ++ String u EmptyString) now = Some (digitsValue 0 digits * k)
  ∧ parseRotateAt (String "+" (digits ++ String u EmptyString)) now
    = Some (digitsValue 0 digits * k).
Proof.
  intros Ht Hd Hk.
  destruct (relativeMatch_digits_unit digits u Ht Hd) as [Hm Hp].
  assert (Hnc : noColon (digits ++ String u EmptyString) = true).
  { rewrite noColon_app. simpl.
    by rewrite (allDigits_noColon _ Hd), (multipliers_not_colon _ _ Hk). }
  assert (Hv : parseInt digits = Some (digitsValue 0 digits)).
  { unfold parseInt. by rewrite Ht, Hd. }
  split.
  - rewrite parseRotateAt_unfold.
    replace (truthy (digits ++ String u EmptyString)) with true by (by destruct digits).
    unfold timeOfDayMatch. rewrite (split_noColon _ Hnc). simpl.
    unfold relativeDelay. rewrite Hm, Hv. simpl. by rewrite Hk.
  - rewrite parseRotateAt_unfold. cbn [truthy negb].
    unfold timeOfDayMatch. rewrite split_noColon by (simpl; exact Hnc). simpl.
    unfold relativeDelay. rewrite Hp, Hv. simpl. by rewrite Hk.
Qed.

Lemma parseRotateAt_relative_witness :
  parseRotateAt "90M" (mkDate 0 0 0 0 0 0) = Some (90 * 60000)
  ∧ parseRotateAt "+90M" (mkDate 0 0 0 0 0 0) = Some (90 * 60000).
Proof.
  apply (parseRotateAt_relative "90" "M" 60000 (mkDate 0 0 0 0 0 0)); reflexivity.
Defined.

End ViewSchema.

(* ===================================================================== *)
(** ** services/ble/ViewCharacteristic.js                                 *)
(* ===================================================================== *)

Module ViewCharacteristic.
Local Open Scope list_scope.

(** A Node [Buffer] is a sequence of bytes. *)
Abbreviation Buffer := (list byte).

Definition FLAG_START : byte := x01.
Definition FLAG_CONTINUE : byte := x02.
Definition FLAG_END : byte := x03.
Definition FLAG_SINGLE : byte := x04.

(** [Buffer.alloc(size)]: zero-filled; a negative size raises. *)
Definition alloc (size : Z) : option Buffer :=
  if size <? 0 then None else Some (replicate (Z.to_nat size) x00).

(** [buf.writeUInt8(value, offset)]: raises when [offset] is out of range. *)
Definition writeUInt8 (value : byte) (offset : Z) (buf : Buffer) : option Buffer :=
  if (0 <=? offset) && (offset <? Z.of_nat (length buf))
  then Some (<[Z.to_nat offset := value]> buf)
  else None.

(** [source.copy(target, targetStart, sourceStart, sourceEnd)]: copies as many
    bytes as the source range holds and the target has room for. *)
Definition copy (source target : Buffer) (targetStart sourceStart sourceEnd : Z) : Buffer :=
  let ts := Z.to_nat targetStart in
  let chunk := take (Z.to_nat (sourceEnd - sourceStart)) (drop (Z.to_nat sourceStart) source) in
  let chunk := take (length target - ts)%nat chunk in
  take ts target ++ chunk ++ drop (ts + length chunk)%nat target.

(** The four statements that build one packet:
    [Buffer.alloc(1 + size)], [writeUInt8(flag, 0)], [buffer.copy(packet, 1,
    offset, offset + size)]. *)
Definition makePacket (flag : byte) (buffer : Buffer) (offset size : Z) : option Buffer :=
  packet ← alloc (1 + size);
  packet ← writeUInt8 flag 0 packet;
  Some (copy buffer packet 1 offset (offset + size)).

Record ViewCharacteristic := mkCharacteristic {
  updateValueCallback : option nat;
  maxValueSize : Z
}.

(** The constructor: no receiver, the default BLE MTU. *)
Definition new : ViewCharacteristic :=
  {| updateValueCallback := None; maxValueSize := 20 |}.

Definition onSubscribe (maxValueSize_ : Z) (updateValueCallback_ : nat)
    (self : ViewCharacteristic) : ViewCharacteristic :=
  {| updateValueCallback := Some updateValueCallback_; maxValueSize := maxValueSize_ |}.

Definition onUnsubscribe (self : ViewCharacteristic) : ViewCharacteristic :=
  {| updateValueCallback := None; maxValueSize := maxValueSize self |}.

(** How a call ends: it returns, an exception reaches the [catch] (and is
    logged), or the loop is still running when the fuel is spent. *)
Inductive Completion := Returned | Caught | OutOfFuel.

(** The [while (offset < totalLen)] loop; the packets are listed in the order
    they are handed to [updateValueCallback]. *)
Fixpoint sendContinueBlocks (fuel : nat) (buffer : Buffer) (chunkSize totalLen offset : Z)
    : list Buffer * Completion :=
  match fuel with
  | O => if offset <? totalLen then ([], OutOfFuel) else ([], Returned)
  | S fuel' =>
      if offset <? totalLen then
        let isLast := totalLen - offset <=? chunkSize in
        let currentChunkSize := Z.min chunkSize (totalLen - offset) in
        match makePacket (if isLast then FLAG_END else FLAG_CONTINUE)
                         buffer offset currentChunkSize with
        | None => ([], Caught)
        | Some packet =>
            let '(rest, c) := sendContinueBlocks fuel' buffer chunkSize totalLen
                                                 (offset + currentChunkSize) in
            (packet :: rest, c)
        end
      else ([], Returned)
  end.

(** [sendViewUpdate(viewData)], from [buffer = Buffer.from(JSON.stringify(viewData))]
    on: the packets handed to [updateValueCallback], in order. *)
Definition sendViewUpdate (fuel : nat) (self : ViewCharacteristic) (buffer : Buffer)
    : list Buffer * Completion :=
  match updateValueCallback self with
  | None => ([], Returned)
  | Some _ =>
      let chunkSize := maxValueSize self - 1 in
      let totalLen := Z.of_nat (length buffer) in
      if totalLen <=? chunkSize then
        match alloc (1 + totalLen) with
        | None => ([], Caught)
        | Some packet =>
            match writeUInt8 FLAG_SINGLE 0 packet with
            | None => ([], Caught)
            | Some packet => ([copy buffer packet 1 0 totalLen], Returned)
            end
        end
      else
        let offset := 0 in
        let currentChunkSize := Z.min chunkSize (totalLen - offset) in
        match makePacket FLAG_START buffer offset currentChunkSize with
        | None => ([], Caught)
        | Some packet =>
            let '(rest, c) := sendContinueBlocks fuel buffer chunkSize totalLen
                                                 (offset + currentChunkSize) in
            (packet :: rest, c)
        end
  end.

(** The tag byte and the payload of a packet. *)
Definition tag (packet : Buffer) : option byte := head packet.
Definition payload (packet : Buffer) : Buffer := drop 1 packet.

(** ceil(a / b) for positive [b]. *)
Definition ceilDiv (a b : Z) : Z := (a + b - 1) / b.

(** *** Packets *)

Lemma makePacket_slice flag (buffer : Buffer) offset size :
  0 <= offset -> 0 <= size -> offset + size <= Z.of_nat (length buffer) ->
  makePacket flag buffer offset size
  = Some (flag :: take (Z.to_nat size) (drop (Z.to_nat offset) buffer)).
Proof.
  intros Hoff Hsize Hfit. unfold makePacket, alloc, writeUInt8, copy.
  destruct (1 + size <? 0) eqn:Hneg; [lia |]. simpl.
  replace (Z.to_nat (1 + size)) with (S (Z.to_nat size)) by lia. simpl.
  f_equal. f_equal.
  replace (offset + size - offset) with size by lia.
  rewrite length_replicate.
  set (chunk := take (Z.to_nat size) (drop (Z.to_nat offset) buffer)).
  assert (Hlen : length chunk = Z.to_nat size).
  { subst chunk. rewrite length_take, length_drop. lia. }
  replace (Z.to_nat size - 0)%nat with (Z.to_nat size) by lia.
  rewrite (take_ge chunk) by lia.
  rewrite Hlen, drop_ge; [by rewrite app_nil_r | rewrite length_replicate; lia].
Qed.

Lemma ceilDiv_zero b : 1 <= b -> ceilDiv 0 b = 0.
Proof. intros Hb. unfold ceilDiv. apply Z.div_small. lia. Qed.

Lemma ceilDiv_small a b : 1 <= a <= b -> ceilDiv a b = 1.
Proof.
  intros H. unfold ceilDiv.
  replace (a + b - 1) with ((a - 1) + 1 * b) by lia.
  rewrite Z.div_add by lia. rewrite Z.div_small; lia.
Qed.

Lemma ceilDiv_step a b : 1 <= b -> ceilDiv a b = 1 + ceilDiv (a - b) b.
Proof.
  intros Hb. unfold ceilDiv.
  replace (a + b - 1) with ((a - b + b - 1) + 1 * b) by lia.
  rewrite Z.div_add by lia. lia.
Qed.

(** The loop, started at [offset], sends what is left of the buffer: every
    packet but the last is a CONTINUE packet, the last is the END packet. *)
Lemma sendContinueBlocks_spec (buffer : Buffer) chunkSize fuel :
  1 <= chunkSize ->
  forall offset,
    0 <= offset <= Z.of_nat (length buffer) ->
    Z.of_nat (length buffer) - offset <= Z.of_nat fuel ->
    exists packets,
      sendContinueBlocks fuel buffer chunkSize (Z.of_nat (length buffer)) offset
      = (packets, Returned)
      /\ concat (payload <$> packets) = drop (Z.to_nat offset) buffer
      /\ Forall (fun p => Z.of_nat (length (payload p)) <= chunkSize) packets
      /\ Z.of_nat (length packets) = ceilDiv (Z.of_nat (length buffer) - offset) chunkSize
      /\ (offset < Z.of_nat (length buffer) ->
          tag <$> packets
          = replicate (length packets - 1) (Some FLAG_CONTINUE) ++ [Some FLAG_END]).
Proof.
  intros Hcs. set (L := Z.of_nat (length buffer)).
  induction fuel as [|fuel IH]; intros offset Hoff Hfuel.
  - assert (offset = L) as -> by lia. simpl.
    rewrite Z.ltb_irrefl. exists []. simpl.
    rewrite drop_ge by lia. rewrite Z.sub_diag, ceilDiv_zero by lia.
    repeat split; auto; lia.
  - simpl. destruct (offset <? L) eqn:Hlt.
    2:{ assert (offset = L) as -> by lia. exists []. simpl.
        rewrite drop_ge by lia. rewrite Z.sub_diag, ceilDiv_zero by lia.
        repeat split; auto; lia. }
    apply Z.ltb_lt in Hlt.
    set (cur := Z.min chunkSize (L - offset)).
    assert (Hcur : 1 <= cur <= chunkSize /\ offset + cur <= L) by (subst cur; lia).
    rewrite makePacket_slice by (fold L; lia).
    destruct (IH (offset + cur)) as (rest & Heq & Hcat & Hall & Hcount & Htags);
      [lia | lia |].
    rewrite Heq. eexists. split; [reflexivity |].
    assert (Hpay : forall f, payload (f :: take (Z.to_nat cur) (drop (Z.to_nat offset) buffer))
                        = take (Z.to_nat cur) (drop (Z.to_nat offset) buffer)).
    { intros f. unfold payload. simpl. by rewrite drop_0. }
    split; [| split; [| split]].
    + rewrite fmap_cons. simpl. rewrite Hpay, Hcat.
      replace (Z.to_nat (offset + cur)) with (Z.to_nat offset + Z.to_nat cur)%nat by lia.
      rewrite <- drop_drop. apply take_drop.
    + constructor; [| done]. rewrite Hpay, length_take, length_drop. lia.
    + simpl length. rewrite Nat2Z.inj_succ, Hcount.
      destruct (L - offset <=? chunkSize) eqn:Hlast.
      * apply Z.leb_le in Hlast.
        replace (L - (offset + cur)) with 0 by (subst cur; lia).
        rewrite ceilDiv_zero, ceilDiv_small; lia.
      * apply Z.leb_gt in Hlast.
        rewrite (ceilDiv_step (L - offset)) by lia.
        replace (L - (offset + cur)) with (L - offset - chunkSize) by (subst cur; lia).
        lia.
    + intros _. rewrite fmap_cons. simpl length.
      destruct (L - offset <=? chunkSize) eqn:Hlast.
      * apply Z.leb_le in Hlast.
        assert (Hnil : rest = []).
        { apply length_zero_iff_nil.
          replace (L - (offset + cur)) with 0 in Hcount by (subst cur; lia).
          rewrite ceilDiv_zero in Hcount; lia. }
        subst rest. reflexivity.
      * apply Z.leb_gt in Hlast.
        rewrite Htags by (subst cur; lia).
        assert (Hpos : (1 <= length rest)%nat).
        { destruct rest; [| simpl; lia]. simpl in Hcount.
          replace (L - (offset + cur)) with (L - offset - chunkSize) in Hcount
            by (subst cur; lia).
          rewrite <- (Z.add_0_l (ceilDiv _ _)) in Hcount.
          assert (1 <= ceilDiv (L - offset - chunkSize) chunkSize); [| lia].
          unfold ceilDiv. apply Z.div_le_lower_bound; lia. }
        replace (S (length rest) - 1)%nat with (S (length rest - 1)) by lia.
        reflexivity.
Qed.

(** C3. With a receiver attached and a negotiated size M >= 2, a serialized
    event of L bytes is sent as one SINGLE packet carrying the L bytes when
    L <= M - 1, and otherwise as ceil(L / (M - 1)) packets of at most M - 1
    payload bytes each, tagged START, CONTINUE ..., END in that order; in both
    cases the payloads, concatenated in emission order, are the event. *)
Theorem sendViewUpdate_chunking (self : ViewCharacteristic) (cb : nat) (M : Z)
    (buffer : Buffer) (fuel : nat) :
  2 <= M ->
  (length buffer <= fuel)%nat ->
  let L := Z.of_nat (length buffer) in
  exists packets,
    sendViewUpdate fuel (onSubscribe M cb self) buffer = (packets, Returned)
    /\ concat (payload <$> packets) = buffer
    /\ Forall (fun p => Z.of_nat (length (payload p)) <= M - 1) packets
    /\ (L <= M - 1 -> packets = [FLAG_SINGLE :: buffer])
    /\ (M - 1 < L ->
        Z.of_nat (length packets) = ceilDiv L (M - 1)
        /\ tag <$> packets
           = Some FLAG_START
               :: replicate (length packets - 2) (Some FLAG_CONTINUE) ++ [Some FLAG_END]).
Proof.
  intros HM Hfuel L. unfold sendViewUpdate, onSubscribe. simpl. fold L.
  destruct (L <=? M - 1) eqn:Hsingle.
  - apply Z.leb_le in Hsingle.
    pose proof (makePacket_slice FLAG_SINGLE buffer 0 L) as Hp.
    unfold makePacket in Hp. simpl in Hp.
    destruct (alloc (1 + L)) as [p0|]; simpl in Hp;
      [| specialize (Hp ltac:(lia) ltac:(lia) ltac:(lia)); discriminate].
    destruct (writeUInt8 FLAG_SINGLE 0 p0) as [p1|]; simpl in Hp;
      [| specialize (Hp ltac:(lia) ltac:(lia) ltac:(lia)); discriminate].
    specialize (Hp ltac:(lia) ltac:(lia) ltac:(lia)).
    injection Hp as Hp. rewrite Z.add_0_l in Hp. rewrite Hp.
    subst L. rewrite Nat2Z.id, drop_0, firstn_all.
    eexists. split; [reflexivity |].
    unfold payload. simpl. rewrite drop_0, app_nil_r.
    repeat split; auto; try lia.
  - apply Z.leb_gt in Hsingle.
    set (cur := Z.min (M - 1) (L - 0)).
    assert (Hcur : cur = M - 1) by (subst cur; lia).
    rewrite makePacket_slice by (fold L; lia).
    destruct (sendContinueBlocks_spec buffer (M - 1) fuel ltac:(lia) (0 + cur))
      as (rest & Heq & Hcat & Hall & Hcount & Htags); [fold L; lia | fold L; lia |].
    fold L in Heq, Hcount, Htags. rewrite Heq.
    eexists. split; [reflexivity |].
    split; [| split; [| split]].
    + rewrite fmap_cons. simpl. unfold payload at 1. simpl.
      rewrite drop_0, Hcat, drop_0.
      replace (Z.to_nat (0 + cur)) with (Z.to_nat cur) by lia.
      apply take_drop.
    + constructor; [| done]. unfold payload. simpl.
      rewrite drop_0, length_take, length_drop. lia.
    + intros ?. lia.
    + intros _. simpl length. split.
      * rewrite Nat2Z.inj_succ, Hcount, (ceilDiv_step L) by lia.
        replace (L - (0 + cur)) with (L - (M - 1)) by lia. lia.
      * rewrite fmap_cons, Htags by lia.
        assert (Hpos : (1 <= length rest)%nat).
        { destruct rest; [| simpl; lia]. simpl in Hcount.
          assert (1 <= ceilDiv (L - (0 + cur)) (M - 1)); [| lia].
          unfold ceilDiv. apply Z.div_le_lower_bound; lia. }
        replace (S (length rest) - 2)%nat with (length rest - 1)%nat by lia.
        reflexivity.
Qed.

(** Frames for a 7-byte event at M = 4. *)
Lemma sendViewUpdate_chunking_witness :
  exists packets,
    sendViewUpdate 7 (onSubscribe 4 0 new) (replicate 7 x61) = (packets, Returned)
    /\ concat (payload <$> packets) = replicate 7 x61
    /\ Forall (fun p => Z.of_nat (length (payload p)) <= 4 - 1) packets
    /\ (7 <= 4 - 1 -> packets = [FLAG_SINGLE :: replicate 7 x61])
    /\ (4 - 1 < 7 ->
        Z.of_nat (length packets) = ceilDiv 7 (4 - 1)
        /\ tag <$> packets
           = Some FLAG_START
               :: replicate (length packets - 2) (Some FLAG_CONTINUE) ++ [Some FLAG_END]).
Proof.
  apply (sendViewUpdate_chunking new 0 4 (replicate 7 x61) 7); [lia | simpl; lia].
Defined.

(** *** Sizes below 2, and the bytes of each frame *)

(** X6. With a negotiated size of 1 the chunk size is 0: for a non-empty
    event the loop never ends.  Whatever the number of turns it is given, it
    has sent an empty START packet and one empty CONTINUE packet per turn and
    is still running. *)
Theorem sendViewUpdate_size_one_diverges (self : ViewCharacteristic) (cb : nat)
    (buffer : Buffer) (fuel : nat) :
  buffer <> [] ->
  sendViewUpdate fuel (onSubscribe 1 cb self) buffer
  = ([FLAG_START] :: replicate fuel [FLAG_CONTINUE], OutOfFuel).
Proof.
  intros Hne. unfold sendViewUpdate, onSubscribe. simpl. change (1 - 1) with 0.
  assert (HL : 0 < Z.of_nat (length buffer)) by (destruct buffer; [done | simpl; lia]).
  destruct (Z.of_nat (length buffer) <=? 0) eqn:Hle; [lia |].
  replace (Z.min 0 (Z.of_nat (length buffer) - 0)) with 0 by lia.
  assert (Hloop : sendContinueBlocks fuel buffer 0 (Z.of_nat (length buffer)) 0
                  = (replicate fuel [FLAG_CONTINUE], OutOfFuel)).
  { induction fuel as [|fuel IH]; simpl.
    - by destruct (0 <? Z.of_nat (length buffer)) eqn:?; [| lia].
    - destruct (0 <? Z.of_nat (length buffer)) eqn:?; [| lia].
      destruct (Z.of_nat (length buffer) - 0 <=? 0) eqn:?; [lia |].
      replace (Z.min 0 (Z.of_nat (length buffer) - 0)) with 0 by lia.
      rewrite makePacket_slice by lia. rewrite Z.add_0_l, IH. done. }
  rewrite makePacket_slice by lia. rewrite Z.add_0_l, Hloop. done.
Qed.

Lemma sendViewUpdate_size_one_diverges_witness :
  sendViewUpdate 3 (onSubscribe 1 0 new) [x61]
  = ([FLAG_START] :: replicate 3 [FLAG_CONTINUE], OutOfFuel).
Proof. apply (sendViewUpdate_size_one_diverges new 0%nat [x61] 3). discriminate. Defined.

(** X7. With a negotiated size of 0 or less no packet can be built: the
    exception is caught and nothing is sent, whatever the event. *)
Theorem sendViewUpdate_size_nonpositive_caught (self : ViewCharacteristic) (cb : nat)
    (M : Z) (buffer : Buffer) (fuel : nat) :
  M <= 0 ->
  sendViewUpdate fuel (onSubscribe M cb self) buffer = ([], Caught).
Proof.
  intros HM. unfold sendViewUpdate, onSubscribe. simpl.
  destruct (Z.leb_spec (Z.of_nat (length buffer)) (M - 1)) as [Hle | Hle]; [lia |].
  replace (Z.min (M - 1) (Z.of_nat (length buffer) - 0)) with (M - 1) by lia.
  unfold makePacket, alloc. destruct (1 + (M - 1) <? 0) eqn:Hneg; [done |].
  assert (M = 0) as -> by lia. reflexivity.
Qed.

Lemma sendViewUpdate_size_nonpositive_caught_witness :
  sendViewUpdate 5 (onSubscribe 0 0 new) [x61; x62] = ([], Caught).
Proof. apply (sendViewUpdate_size_nonpositive_caught new 0%nat 0 [x61; x62] 5). lia. Defined.

Lemma sendContinueBlocks_slices (buffer : Buffer) chunkSize fuel :
  1 <= chunkSize ->
  forall offset packets c,
    0 <= offset ->
    sendContinueBlocks fuel buffer chunkSize (Z.of_nat (length buffer)) offset = (packets, c) ->
    forall (i : nat) p, packets !! i = Some p ->
      payload p = take (Z.to_nat chunkSize)
                       (drop (Z.to_nat (offset + Z.of_nat i * chunkSize)) buffer).
Proof.
  intros Hcs. set (L := Z.of_nat (length buffer)).
  induction fuel as [|fuel IH]; intros offset packets c Hoff Hrun i p Hp.
  - simpl in Hrun. destruct (offset <? L); injection Hrun as <- _; done.
  - simpl in Hrun. destruct (offset <? L) eqn:Hlt; [| injection Hrun as <- _; done].
    apply Z.ltb_lt in Hlt.
    set (cur := Z.min chunkSize (L - offset)) in *.
    rewrite makePacket_slice in Hrun by (fold L; lia).
    destruct (sendContinueBlocks fuel buffer chunkSize L (offset + cur)) as [rest c'] eqn:Hrest.
    injection Hrun as <- _.
    destruct i as [|i]; simpl in Hp.
    + injection Hp as <-. unfold payload. simpl. rewrite drop_0.
      replace (offset + Z.of_nat 0 * chunkSize) with offset by lia.
      destruct (Z.le_gt_cases chunkSize (L - offset)).
      * by replace cur with chunkSize by lia.
      * rewrite !take_ge; [done | |]; rewrite length_drop; lia.
    + rewrite (IH (offset + cur) rest c' ltac:(lia) Hrest i p Hp).
      destruct (Z.le_gt_cases chunkSize (L - offset)).
      * replace cur with chunkSize by lia. do 2 f_equal. lia.
      * (* the last packet was sent: nothing is left *)
        exfalso. replace cur with (L - offset) in Hrest by lia.
        replace (offset + (L - offset)) with L in Hrest by lia.
        destruct fuel; simpl in Hrest; rewrite Z.ltb_irrefl in Hrest;
          injection Hrest as <- _; done.
Qed.

(** X8. With a receiver attached and a negotiated size M >= 2, the packet
    sent in position i carries the bytes of the event from offset i (M - 1)
    on, up to M - 1 of them: frames are cut in order, without gap or
    overlap, and each fits the negotiated size. *)
Theorem sendViewUpdate_frame_bytes (self : ViewCharacteristic) (cb : nat) (M : Z)
    (buffer : Buffer) (fuel : nat) (i : nat) (p : Buffer) :
  2 <= M ->
  (sendViewUpdate fuel (onSubscribe M cb self) buffer).1 !! i = Some p ->
  payload p = take (Z.to_nat (M - 1)) (drop (i * Z.to_nat (M - 1)) buffer)
  ∧ Z.of_nat (length p) <= M.
Proof.
  intros HM Hp.
  assert (Hpay : payload p = take (Z.to_nat (M - 1)) (drop (i * Z.to_nat (M - 1)) buffer)).
  { revert Hp. unfold sendViewUpdate, onSubscribe. simpl.
    set (L := Z.of_nat (length buffer)).
    destruct (L <=? M - 1) eqn:Hsingle.
    - apply Z.leb_le in Hsingle.
      pose proof (makePacket_slice FLAG_SINGLE buffer 0 L) as Hmk.
      unfold makePacket in Hmk. simpl in Hmk.
      destruct (alloc (1 + L)) as [p0|]; simpl in Hmk;
        [| specialize (Hmk ltac:(lia) ltac:(lia) ltac:(lia)); discriminate].
      destruct (writeUInt8 FLAG_SINGLE 0 p0) as [p1|]; simpl in Hmk;
        [| specialize (Hmk ltac:(lia) ltac:(lia) ltac:(lia)); discriminate].
      specialize (Hmk ltac:(lia) ltac:(lia) ltac:(lia)). injection Hmk as Hmk.
      rewrite Z.add_0_l in Hmk. rewrite Hmk. simpl.
      destruct i as [|i]; [| done]. intros [= <-]. unfold payload. simpl.
      rewrite !drop_0. subst L. rewrite Nat2Z.id, firstn_all.
      rewrite take_ge; [done | lia].
    - apply Z.leb_gt in Hsingle.
      replace (Z.min (M - 1) (L - 0)) with (M - 1) by lia.
      rewrite makePacket_slice by (fold L; lia).
      destruct (sendContinueBlocks fuel buffer (M - 1) L (0 + (M - 1))) as [rest c] eqn:Hrest.
      simpl. destruct i as [|i]; simpl.
      + intros [= <-]. unfold payload. simpl. by rewrite !drop_0.
      + intros Hi.
        rewrite (sendContinueBlocks_slices buffer (M - 1) fuel ltac:(lia)
                   (0 + (M - 1)) rest c ltac:(lia) Hrest i p Hi).
        do 2 f_equal. nia. }
  split; [done |].
  assert (Hlen : (length p <= S (length (payload p)))%nat).
  { unfold payload. destruct p; simpl; [lia |]. rewrite drop_0. lia. }
  rewrite Hpay, length_take in Hlen. lia.
Qed.

Lemma sendViewUpdate_frame_bytes_witness :
  payload [x02; x64; x65; x66] = take (Z.to_nat (4 - 1)) (drop (1 * Z.to_nat (4 - 1))
                                       [x61; x62; x63; x64; x65; x66; x67])
  ∧ Z.of_nat (length [x02; x64; x65; x66]) <= 4.
Proof.
  apply (sendViewUpdate_frame_bytes new 0%nat 4 [x61; x62; x63; x64; x65; x66; x67] 7 1);
    [lia | reflexivity].
Defined.

End ViewCharacteristic.

(* ===================================================================== *)
(** ** utils/imageProxy.js, services/redis.js, services/channelManager.js *)
(* ===================================================================== *)

Module ChannelManager.
Import JS ViewSchema.
Local Open Scope list_scope.

(** *** JavaScript [Set]s, in insertion order *)

Section JSSet.
Context {A : Type} `{EqDecision A}.

Definition Set_add (x : A) (s : list A) : list A :=
  if decide (x ∈ s) then s else s ++ [x].

Definition Set_delete (x : A) (s : list A) : list A :=
  filter (fun y => y <> x) s.

End JSSet.

(** *** utils/imageProxy.js *)

Fixpoint assocGet (k : string) (o : list (string * string)) : option string :=
  match o with
  | [] => None
  | (k', v) :: o' => if String.eqb k' k then Some v else assocGet k o'
  end.

Fixpoint assocSet (k v : string) (o : list (string * string)) : list (string * string) :=
  match o with
  | [] => [(k, v)]
  | (k', v') :: o' => if String.eqb k' k then (k, v) :: o' else (k', v') :: assocSet k v o'
  end.

Fixpoint stringIncludes (needle s : string) : bool :=
  String.prefix needle s
  || match s with
     | EmptyString => false
     | String _ rest => stringIncludes needle rest
     end.

Definition hexDigit (n : nat) : ascii :=
  ascii_of_nat (if (n <? 10)%nat then 48 + n else 55 + n).

Definition uriUnreserved (c : ascii) : bool :=
  let n := nat_of_ascii c in
  ((65 <=? n) && (n <=? 90) || (97 <=? n) && (n <=? 122) || (48 <=? n) && (n <=? 57))%nat
  || stringIncludes (String c EmptyString) "-_.!~*'()".

(** [encodeURIComponent(s)] on the UTF-8 bytes of [s]. *)
Fixpoint encodeURIComponent (s : string) : string :=
  match s with
  | EmptyString => EmptyString
  | String c rest =>
      if uriUnreserved c then String c (encodeURIComponent rest)
      else let n := nat_of_ascii c in
           String "%" (String (hexDigit (n / 16)) (String (hexDigit (n mod 16))
                                                          (encodeURIComponent rest)))
  end.

(** [rewriteImageUrls(view)]; [SERVER_BASE_URL] is read from the process
    environment when the module loads. *)
Definition rewriteImageUrls (SERVER_BASE_URL : string) (view : View) : View :=
  match type <$> metadata view, assocGet "url" (data view) with
  | Some ty, Some originalUrl =>
      if String.eqb ty "image" && truthy originalUrl
         && (String.prefix "http://" originalUrl || String.prefix "https://" originalUrl)
         && negb (stringIncludes "/api/proxy/image/" originalUrl)
      then {| view_id := view_id view; metadata := metadata view;
              data := assocSet "url"
                        (SERVER_BASE_URL ++ "/api/proxy/image/" ++ encodeURIComponent originalUrl)
                        (data view);
              created_at := created_at view |}
      else view
  | _, _ => view
  end.

(** *** The state of the hub *)

(** A response object ([res]) is known by its identity. *)
Abbreviation Sink := nat.

(** The closure [redisCallback(channel)]: its identity and the channel it
    closes over. *)
Record Callback := mkCallback { cb_id : nat; cb_channel : string }.

#[export] Instance Callback_eq_dec : EqDecision Callback.
Proof. solve_decision. Defined.

Record ClientInfo := mkClientInfo { clientId : string; ci_channel : string; ci_ip : string }.

(** The objects [{ res, channel }] kept in [ipConnections]. *)
Record ConnInfo := mkConnInfo { conn_res : Sink; conn_channel : string }.

(** [{ type, view }]. *)
Record Message := mkMessage { msg_type : string; msg_view : option View }.

Record Hub := mkHub {
  (* process environment *)
  SERVER_BASE_URL : string;
  (* services/redis.js *)
  channelCallbacks : gmap string (list Callback);
  subscriberTopics : gset string;
  (* services/channelManager.js *)
  channels : gmap string (list Sink);
  clientMap : gmap Sink ClientInfo;
  ipConnections : gmap string (list ConnInfo);
  redisCallbacks : gmap string Callback;
  (* the response objects and the closures created so far *)
  destroyed : gset Sink;
  closed : gset Sink;
  closeListeners : list (Sink * string);
  written : list (Sink * Message);
  nextSink : Sink;
  nextCallback : nat
}.

(** The hub when the server has started: redis initialised, nothing
    registered. *)
Definition start (baseUrl : string) : Hub :=
  {| SERVER_BASE_URL := baseUrl;
     channelCallbacks := ∅; subscriberTopics := ∅;
     channels := ∅; clientMap := ∅; ipConnections := ∅; redisCallbacks := ∅;
     destroyed := ∅; closed := ∅; closeListeners := []; written := [];
     nextSink := 0%nat; nextCallback := 0%nat |}.

Definition with_redis (cbs : gmap string (list Callback)) (topics : gset string) (h : Hub) : Hub :=
  {| SERVER_BASE_URL := SERVER_BASE_URL h;
     channelCallbacks := cbs; subscriberTopics := topics;
     channels := channels h; clientMap := clientMap h; ipConnections := ipConnections h;
     redisCallbacks := redisCallbacks h;
     destroyed := destroyed h; closed := closed h; closeListeners := closeListeners h;
     written := written h; nextSink := nextSink h; nextCallback := nextCallback h |}.

Definition with_channels (chs : gmap string (list Sink)) (h : Hub) : Hub :=
  {| SERVER_BASE_URL := SERVER_BASE_URL h;
     channelCallbacks := channelCallbacks h; subscriberTopics := subscriberTopics h;
     channels := chs; clientMap := clientMap h; ipConnections := ipConnections h;
     redisCallbacks := redisCallbacks h;
     destroyed := destroyed h; closed := closed h; closeListeners := closeListeners h;
     written := written h; nextSink := nextSink h; nextCallback := nextCallback h |}.

Definition with_clientMap (cm : gmap Sink ClientInfo) (h : Hub) : Hub :=
  {| SERVER_BASE_URL := SERVER_BASE_URL h;
     channelCallbacks := channelCallbacks h; subscriberTopics := subscriberTopics h;
     channels := channels h; clientMap := cm; ipConnections := ipConnections h;
     redisCallbacks := redisCallbacks h;
     destroyed := destroyed h; closed := closed h; closeListeners := closeListeners h;
     written := written h; nextSink := nextSink h; nextCallback := nextCallback h |}.

Definition with_ipConnections (ips : gmap string (list ConnInfo)) (h : Hub) : Hub :=
  {| SERVER_BASE_URL := SERVER_BASE_URL h;
     channelCallbacks := channelCallbacks h; subscriberTopics := subscriberTopics h;
     channels := channels h; clientMap := clientMap h; ipConnections := ips;
     redisCallbacks := redisCallbacks h;
     destroyed := destroyed h; closed := closed h; closeListeners := closeListeners h;
     written := written h; nextSink := nextSink h; nextCallback := nextCallback h |}.

Definition with_redisCallbacks (rcs : gmap string Callback) (next : nat) (h : Hub) : Hub :=
  {| SERVER_BASE_URL := SERVER_BASE_URL h;
     channelCallbacks := channelCallbacks h; subscriberTopics := subscriberTopics h;
     channels := channels h; clientMap := clientMap h; ipConnections := ipConnections h;
     redisCallbacks := rcs;
     destroyed := destroyed h; closed := closed h; closeListeners := closeListeners h;
     written := written h; nextSink := nextSink h; nextCallback := next |}.

Definition with_sinks (d c : gset Sink) (ls : list (Sink * string))
    (w : list (Sink * Message)) (next : Sink) (h : Hub) : Hub :=
  {| SERVER_BASE_URL := SERVER_BASE_URL h;
     channelCallbacks := channelCallbacks h; subscriberTopics := subscriberTopics h;
     channels := channels h; clientMap := clientMap h; ipConnections := ipConnections h;
     redisCallbacks := redisCallbacks h;
     destroyed := d; closed := c; closeListeners := ls;
     written := w; nextSink := next; nextCallback := nextCallback h |}.

(** *** services/redis.js (with [initializeRedis] done) *)

Definition subscribe (channel : string) (callback : Callback) (h : Hub) : Hub :=
  let h :=
    match channelCallbacks h !! channel with
    | None => with_redis (<[channel := []]> (channelCallbacks h))
                         ({[channel]} ∪ subscriberTopics h) h
    | Some _ => h
    end in
  with_redis (alter (Set_add callback) channel (channelCallbacks h)) (subscriberTopics h) h.

Definition unsubscribe (channel : string) (callback : Callback) (h : Hub) : Hub :=
  match channelCallbacks h !! channel with
  | Some callbacks =>
      let callbacks := Set_delete callback callbacks in
      if decide (length callbacks = 0%nat)
      then with_redis (delete channel (channelCallbacks h)) (subscriberTopics h ∖ {[channel]}) h
      else with_redis (<[channel := callbacks]> (channelCallbacks h)) (subscriberTopics h) h
  | None => h
  end.

(** *** services/channelManager.js *)

(** The message every sink is sent: view events have their image URLs
    rewritten. *)
Definition processMessage (h : Hub) (message : Message) : Message :=
  if String.eqb (msg_type message) "initial_view" || String.eqb (msg_type message) "view_change"
  then match msg_view message with
       | Some view => {| msg_type := msg_type message;
                         msg_view := Some (rewriteImageUrls (SERVER_BASE_URL h) view) |}
       | None => message
       end
  else message.

(** One turn of [clients.forEach]: [res.write] either succeeds or throws
    ([fails res]); the [catch] block drops the sink. *)
Definition sendTo (channel : string) (fails : Sink -> bool) (processedMessage : Message)
    (h : Hub) (res : Sink) : Hub :=
  if fails res then
    let h := with_channels (alter (Set_delete res) channel (channels h)) h in
    with_clientMap (delete res (clientMap h)) h
  else
    with_sinks (destroyed h) (closed h) (closeListeners h)
               (written h ++ [(res, processedMessage)]) (nextSink h) h.

(** [redisCallback(channel)(message)]. *)
Definition redisCallback (channel : string) (fails : Sink -> bool) (message : Message)
    (h : Hub) : Hub :=
  match channels h !! channel with
  | Some clients => foldl (sendTo channel fails (processMessage h message)) h clients
  | None => h
  end.

(** [res.destroy()]: the response is flagged at once; its ['close'] event is
    delivered in a later turn of the event loop. *)
Definition destroy (res : Sink) (h : Hub) : Hub :=
  with_sinks ({[res]} ∪ destroyed h) (closed h) (closeListeners h) (written h) (nextSink h) h.

(** One turn of the loop over [existingConnections]. *)
Definition evict (h : Hub) (connInfo : ConnInfo) : Hub :=
  let h := if decide (conn_res connInfo ∈ destroyed h) then h else destroy (conn_res connInfo) h in
  let h := with_channels (alter (Set_delete (conn_res connInfo)) (conn_channel connInfo)
                                (channels h)) h in
  with_clientMap (delete (conn_res connInfo) (clientMap h)) h.

Definition subscribeClient (channel : string) (res : Sink) (clientId_ ip : string)
    (h : Hub) : Hub :=
  (* Close any existing connections from the same IP *)
  let h :=
    match ipConnections h !! ip with
    | Some existingConnections =>
        let h := foldl evict h existingConnections in
        with_ipConnections (delete ip (ipConnections h)) h
    | None => h
    end in
  let h :=
    match channels h !! channel with
    | None =>
        let h := with_channels (<[channel := []]> (channels h)) h in
        let callback := {| cb_id := nextCallback h; cb_channel := channel |} in
        let h := with_redisCallbacks (<[channel := callback]> (redisCallbacks h))
                                     (S (nextCallback h)) h in
        subscribe channel callback h
    | Some _ => h
    end in
  let h := with_channels (alter (Set_add res) channel (channels h)) h in
  let h := with_clientMap (<[res := {| clientId := clientId_; ci_channel := channel;
                                       ci_ip := ip |}]> (clientMap h)) h in
  (* Track by IP: the object literal is a new element of the set *)
  let h :=
    match ipConnections h !! ip with
    | None => with_ipConnections (<[ip := []]> (ipConnections h)) h
    | Some _ => h
    end in
  let h := with_ipConnections
             (alter (fun s => s ++ [{| conn_res := res; conn_channel := channel |}]) ip
                    (ipConnections h)) h in
  with_sinks (destroyed h) (closed h) (closeListeners h ++ [(res, channel)]) (written h)
             (nextSink h) h.

(** [for (const connInfo of ipConns) if (connInfo.res === res) { delete; break }]. *)
Fixpoint deleteFirst (res : Sink) (ipConns : list ConnInfo) : list ConnInfo :=
  match ipConns with
  | [] => []
  | connInfo :: rest =>
      if decide (conn_res connInfo = res) then rest else connInfo :: deleteFirst res rest
  end.

Definition unsubscribeClient (channel : string) (res : Sink) (h : Hub) : Hub :=
  let clientInfo := clientMap h !! res in
  match channels h !! channel with
  | Some clients =>
      let clients := Set_delete res clients in
      let h := with_channels (<[channel := clients]> (channels h)) h in
      (* Remove from IP tracking *)
      let h :=
        match clientInfo with
        | Some info =>
            if truthy (ci_ip info) then
              match ipConnections h !! ci_ip info with
              | Some ipConns =>
                  let ipConns := deleteFirst res ipConns in
                  if decide (length ipConns = 0%nat)
                  then with_ipConnections (delete (ci_ip info) (ipConnections h)) h
                  else with_ipConnections (<[ci_ip info := ipConns]> (ipConnections h)) h
              | None => h
              end
            else h
        | None => h
        end in
      let h := with_clientMap (delete res (clientMap h)) h in
      if decide (length clients = 0%nat) then
        let h := with_channels (delete channel (channels h)) h in
        match redisCallbacks h !! channel with
        | Some callback =>
            let h := unsubscribe channel callback h in
            with_redisCallbacks (delete channel (redisCallbacks h)) (nextCallback h) h
        | None => h
        end
      else h
  | None => h
  end.

(** *** The turns of the event loop that reach the hub *)

Inductive Event :=
| Connect (channel clientId_ ip : string)
    (** a new response object is subscribed (routes/sse.js, BleService) *)
| Close (res : Sink)
    (** the connection behind [res] closes: its ['close'] listeners run *)
| BusMessage (channel : string) (message : Message) (failing : list Sink)
    (** the bus delivers [message] on [channel]; writing to the sinks listed
        in [failing] throws *).

Definition runListeners (res : Sink) (h : Hub) : Hub :=
  foldl (fun h l => if decide (l.1 = res) then unsubscribeClient l.2 res h else h)
        h (closeListeners h).

Definition step (h : Hub) (e : Event) : Hub :=
  match e with
  | Connect channel clientId_ ip =>
      let res := nextSink h in
      let h := subscribeClient channel res clientId_ ip h in
      with_sinks (destroyed h) (closed h) (closeListeners h) (written h) (S res) h
  | Close res =>
      if decide ((res < nextSink h)%nat ∧ res ∉ closed h) then
        let h := with_sinks ({[res]} ∪ destroyed h) ({[res]} ∪ closed h) (closeListeners h)
                            (written h) (nextSink h) h in
        runListeners res h
      else h
  | BusMessage channel message failing =>
      match channelCallbacks h !! channel with
      | Some callbacks =>
          foldl (fun h callback =>
                   redisCallback (cb_channel callback) (fun res => bool_decide (res ∈ failing))
                                 message h)
                h callbacks
      | None => h
      end
  end.

Definition run (baseUrl : string) (trace : list Event) : Hub :=
  foldl step (start baseUrl) trace.

(** The sinks of a channel, and the origins under which the responses of a
    trace were subscribed (response [i] is the one the [i]-th [Connect]
    created). *)
Definition sinksOf (h : Hub) (channel : string) : list Sink :=
  default [] (channels h !! channel).

Definition indexedUnder (h : Hub) (ip : string) : list Sink :=
  conn_res <$> default [] (ipConnections h !! ip).

Definition subscriptionsOf (h : Hub) (channel : string) : list Callback :=
  default [] (channelCallbacks h !! channel).

Fixpoint origins (trace : list Event) : list string :=
  match trace with
  | [] => []
  | Connect _ _ ip :: rest => ip :: origins rest
  | _ :: rest => origins rest
  end.

(** *** Sets *)

Section JSSetFacts.
Context {A : Type} `{EqDecision A}.
Implicit Types (x y : A) (s : list A).

Lemma elem_of_Set_delete x y s : y ∈ Set_delete x s <-> y ∈ s ∧ y <> x.
Proof. unfold Set_delete. rewrite list_elem_of_filter. tauto. Qed.

Lemma Set_delete_notin x s : x ∉ s -> Set_delete x s = s.
Proof.
  intros Hx. unfold Set_delete. induction s as [|y s IH]; [done |].
  rewrite filter_cons. case_decide as Hy.
  - f_equal. apply IH. set_solver.
  - subst. set_solver.
Qed.

Lemma elem_of_Set_add x y s : y ∈ Set_add x s <-> y ∈ s ∨ y = x.
Proof. unfold Set_add. destruct (decide (x ∈ s)); set_solver. Qed.

End JSSetFacts.

(** *** Unsubscribing *)

Lemma hub_eta (h : Hub) :
  {| SERVER_BASE_URL := SERVER_BASE_URL h;
     channelCallbacks := channelCallbacks h; subscriberTopics := subscriberTopics h;
     channels := channels h; clientMap := clientMap h; ipConnections := ipConnections h;
     redisCallbacks := redisCallbacks h;
     destroyed := destroyed h; closed := closed h; closeListeners := closeListeners h;
     written := written h; nextSink := nextSink h; nextCallback := nextCallback h |} = h.
Proof. by destruct h. Qed.

(** A sink that is not registered any more, in a channel that is gone or
    still has sinks: unsubscribing changes nothing. *)
Lemma unsubscribeClient_absent (h : Hub) (channel : string) (res : Sink) :
  channels h !! channel = None
  ∨ (clientMap h !! res = None
     ∧ (exists clients, channels h !! channel = Some clients ∧ (res ∉ clients) ∧ clients ≠ [])) ->
  unsubscribeClient channel res h = h.
Proof.
  unfold unsubscribeClient. intros [Hnone | (Hcm & clients & Hch & Hnotin & Hne)].
  - by rewrite Hnone.
  - rewrite Hch, Hcm, Set_delete_notin by done.
    destruct (decide (length clients = 0%nat)) as [Hlen | _].
    { by apply length_zero_iff_nil in Hlen. }
    unfold with_clientMap, with_channels. simpl.
    rewrite insert_id by done. rewrite delete_id by done. apply hub_eta.
Qed.

Lemma unsubscribe_channels channel callback h :
  channels (unsubscribe channel callback h) = channels h
  ∧ clientMap (unsubscribe channel callback h) = clientMap h.
Proof. unfold unsubscribe. repeat case_match; done. Qed.

(** What an unsubscription leaves behind. *)
Lemma unsubscribeClient_removed (h : Hub) (channel : string) (res : Sink) :
  let h' := unsubscribeClient channel res h in
  channels h' !! channel = None
  ∨ (clientMap h' !! res = None
     ∧ (exists clients, channels h' !! channel = Some clients ∧ (res ∉ clients) ∧ clients ≠ [])).
Proof.
  unfold unsubscribeClient.
  destruct (channels h !! channel) as [clients|] eqn:Hch; [| by left].
  set (h1 := with_channels _ h).
  set (h2 := match clientMap h !! res with Some _ => _ | None => _ end).
  assert (Hh2 : channels h2 = channels h1 ∧ clientMap h2 = clientMap h1).
  { subst h2. repeat case_match; done. }
  destruct Hh2 as [Hh2c Hh2m].
  destruct (decide (length (Set_delete res clients) = 0%nat)) as [Hlen | Hlen].
  - left. destruct (redisCallbacks _ !! channel) eqn:Hcb; simpl.
    + destruct (unsubscribe_channels channel c
                  (with_channels (delete channel (channels h2)) (with_clientMap (delete res (clientMap h2)) h2)))
        as [-> _]. simpl. apply lookup_delete_eq.
    + apply lookup_delete_eq.
  - right. simpl. split; [apply lookup_delete_eq |].
    exists (Set_delete res clients). rewrite Hh2c. subst h1. simpl.
    rewrite lookup_insert_eq. split; [done |]. split.
    + rewrite elem_of_Set_delete. tauto.
    + intros Heq. by rewrite Heq in Hlen.
Qed.


(** *** The registry invariant *)

(** What ties the three maps of the hub together along a run: [trace] is the
    history, response [i] being the one its [i]-th [Connect] created. *)
Record Inv (trace : list Event) (h : Hub) : Prop := mkInv {
  inv_next : nextSink h = length (origins trace);
  inv_member : forall c r, r ∈ sinksOf h c ->
    exists ci, clientMap h !! r = Some ci ∧ ci_channel ci = c;
  inv_client : forall r ci, clientMap h !! r = Some ci ->
    origins trace !! r = Some (ci_ip ci) ∧ r ∈ indexedUnder h (ci_ip ci);
  inv_index : forall o conn, conn ∈ default [] (ipConnections h !! o) ->
    origins trace !! conn_res conn = Some o
    ∧ forall ci, clientMap h !! conn_res conn = Some ci -> ci_channel ci = conn_channel conn;
  inv_gone : forall r o, origins trace !! r = Some o ->
    is_Some (clientMap h !! r) ∨ r ∈ destroyed h ∨ r ∈ indexedUnder h o;
  inv_listeners : forall r c, (r, c) ∈ closeListeners h ->
    (r < nextSink h)%nat ∧ forall ci, clientMap h !! r = Some ci -> ci_channel ci = c
}.

(** The invariant reads the registry only, and only the lower bound of
    [destroyed]. *)
Lemma Inv_ext trace h h' :
  Inv trace h ->
  (forall c, sinksOf h' c = sinksOf h c) -> clientMap h' = clientMap h ->
  (forall o, default [] (ipConnections h' !! o) = default [] (ipConnections h !! o)) ->
  destroyed h ⊆ destroyed h' ->
  closeListeners h' = closeListeners h -> nextSink h' = nextSink h ->
  Inv trace h'.
Proof.
  intros [Hn Hm Hc Hi Hg Hl] Hch Hcm Hip Hd Hls Hnx.
  split; unfold indexedUnder in *;
    try setoid_rewrite Hch; try setoid_rewrite Hip; rewrite ?Hcm, ?Hls, ?Hnx; auto.
  intros r o Ho. destruct (Hg r o Ho) as [?|[?|?]]; auto.
Qed.

(** The two statements by which the fan-out and the eviction loop drop a
    sink: [channels.get(channel)?.delete(res); clientMap.delete(res)]. *)
Definition dropSink (res : Sink) (channel : string) (h : Hub) : Hub :=
  with_clientMap (delete res (clientMap h))
                 (with_channels (alter (Set_delete res) channel (channels h)) h).

Lemma sinksOf_dropSink res channel h c r :
  r ∈ sinksOf (dropSink res channel h) c
  <-> r ∈ sinksOf h c ∧ (c = channel -> r <> res).
Proof.
  unfold sinksOf, dropSink. simpl. rewrite lookup_alter.
  destruct (decide (channel = c)) as [<- | Hne].
  - destruct (channels h !! channel); simpl.
    + rewrite elem_of_Set_delete. naive_solver.
    + set_solver.
  - naive_solver.
Qed.

Lemma Inv_dropSink trace h res channel :
  Inv trace h ->
  (forall ci, clientMap h !! res = Some ci -> ci_channel ci = channel) ->
  Inv trace (dropSink res channel h).
Proof.
  intros [Hn Hm Hc Hi Hg Hl] Hres. split; try done.
  - intros c r Hr. apply sinksOf_dropSink in Hr as [Hr Hne].
    destruct (Hm c r Hr) as (ci & Hci & Hcc). exists ci. split; [| done].
    simpl. rewrite lookup_delete_ne; [done |].
    intros <-. apply Hne; [| done]. rewrite <- Hcc. by apply Hres.
  - intros r ci. simpl. rewrite lookup_delete_Some. intros [_ Hci]. by apply Hc.
  - intros o conn Hconn. destruct (Hi o conn Hconn) as [Ho Hcc]. split; [done |].
    intros ci. simpl. rewrite lookup_delete_Some. intros [_ Hci]. by apply Hcc.
  - intros r o Ho. simpl.
    destruct (Hg r o Ho) as [[ci Hci] | [? | ?]]; auto.
    destruct (decide (r = res)) as [-> | Hne].
    + right. right. destruct (Hc res ci Hci) as [Ho' Hidx].
      assert (o = ci_ip ci) as -> by congruence. exact Hidx.
    + left. exists ci. by rewrite lookup_delete_ne.
  - intros r c Hrc. destruct (Hl r c Hrc) as [Hlt Hcc]. split; [done |].
    intros ci. simpl. rewrite lookup_delete_Some. intros [_ Hci]. by apply Hcc.
Qed.

(** *** Eviction *)

Lemma evict_dropSink h connInfo :
  evict h connInfo
  = dropSink (conn_res connInfo) (conn_channel connInfo)
             (if decide (conn_res connInfo ∈ destroyed h) then h
              else destroy (conn_res connInfo) h).
Proof. reflexivity. Qed.

Lemma evict_fields h connInfo :
  let h' := evict h connInfo in
  ipConnections h' = ipConnections h
  ∧ clientMap h' = delete (conn_res connInfo) (clientMap h)
  ∧ destroyed h' = {[conn_res connInfo]} ∪ destroyed h
  ∧ closeListeners h' = closeListeners h ∧ nextSink h' = nextSink h
  ∧ channelCallbacks h' = channelCallbacks h ∧ subscriberTopics h' = subscriberTopics h
  ∧ redisCallbacks h' = redisCallbacks h ∧ nextCallback h' = nextCallback h
  ∧ dom (channels h') = dom (channels h).
Proof.
  unfold evict. destruct (decide (conn_res connInfo ∈ destroyed h)); simpl;
    repeat split; try done; try set_solver; apply set_eq; intros c;
    rewrite !elem_of_dom, lookup_alter; destruct (decide (conn_channel connInfo = c));
    subst; rewrite ?fmap_is_Some; done.
Qed.

Lemma Inv_evict trace h connInfo :
  Inv trace h ->
  (forall ci, clientMap h !! conn_res connInfo = Some ci ->
              ci_channel ci = conn_channel connInfo) ->
  Inv trace (evict h connInfo).
Proof.
  intros HI Hcc. rewrite evict_dropSink. apply Inv_dropSink.
  - destruct (decide _); [done |]. eapply Inv_ext; [exact HI | try done ..].
    simpl. set_solver.
  - by destruct (decide _).
Qed.

(** The loop over [existingConnections]. *)
Lemma evictAll_spec trace conns : forall h,
  Inv trace h ->
  (forall conn ci, conn ∈ conns -> clientMap h !! conn_res conn = Some ci ->
                   ci_channel ci = conn_channel conn) ->
  let h' := foldl evict h conns in
  Inv trace h'
  ∧ ipConnections h' = ipConnections h
  ∧ (forall r, clientMap h' !! r
               = if decide (r ∈ conn_res <$> conns) then None else clientMap h !! r)
  ∧ destroyed h' = list_to_set (conn_res <$> conns) ∪ destroyed h
  ∧ closeListeners h' = closeListeners h ∧ nextSink h' = nextSink h
  ∧ channelCallbacks h' = channelCallbacks h ∧ subscriberTopics h' = subscriberTopics h
  ∧ redisCallbacks h' = redisCallbacks h ∧ nextCallback h' = nextCallback h
  ∧ dom (channels h') = dom (channels h).
Proof.
  induction conns as [|conn conns IH]; intros h HI Hcc; cbn [foldl].
  - split; [done |]. split; [done |]. split; [| split; [| done]].
    + intros r. rewrite decide_False; [done | set_solver].
    + set_solver.
  - destruct (evict_fields h conn) as (Hip & Hcm & Hd & Hls & Hnx & Hcb & Hst & Hrc & Hnc & Hdom).
    destruct (IH (evict h conn)) as (HI' & Hip' & Hcm' & Hd' & Hls' & Hnx' & Hcb' & Hst' & Hrc' & Hnc' & Hdom').
    { apply Inv_evict; [done |]. intros ci. apply Hcc. set_solver. }
    { intros conn' ci Hin. rewrite Hcm, lookup_delete_Some. intros [_ Hci].
      eapply Hcc; [| done]. set_solver. }
    split; [done |]. split; [congruence |]. split; [| repeat split; try congruence].
    + intros r. rewrite Hcm', Hcm, fmap_cons.
      destruct (decide (r ∈ conn_res <$> conns)) as [Hin | Hnin].
      * rewrite decide_True; [done | set_solver].
      * destruct (decide (r = conn_res conn)) as [-> | Hne].
        -- rewrite decide_True by set_solver. apply lookup_delete_eq.
        -- rewrite decide_False by set_solver. by apply lookup_delete_ne.
    + rewrite Hd', Hd, fmap_cons. set_solver.
Qed.

(** *** Subscribing *)

(** The three parts of [subscribeClient]. *)
Definition evictSameOrigin (ip : string) (h : Hub) : Hub :=
  match ipConnections h !! ip with
  | Some existingConnections =>
      let h := foldl evict h existingConnections in
      with_ipConnections (delete ip (ipConnections h)) h
  | None => h
  end.

Definition ensureChannel (channel : string) (h : Hub) : Hub :=
  match channels h !! channel with
  | None =>
      let h := with_channels (<[channel := []]> (channels h)) h in
      let callback := {| cb_id := nextCallback h; cb_channel := channel |} in
      let h := with_redisCallbacks (<[channel := callback]> (redisCallbacks h))
                                   (S (nextCallback h)) h in
      subscribe channel callback h
  | Some _ => h
  end.

Lemma subscribeClient_parts channel res cid ip h :
  let h2 := ensureChannel channel (evictSameOrigin ip h) in
  exists ips,
    subscribeClient channel res cid ip h
    = with_sinks (destroyed h2) (closed h2) (closeListeners h2 ++ [(res, channel)])
        (written h2) (nextSink h2)
        (with_ipConnections ips
           (with_clientMap (<[res := mkClientInfo cid channel ip]> (clientMap h2))
              (with_channels (alter (Set_add res) channel (channels h2)) h2)))
    ∧ (forall o, default [] (ips !! o)
                 = if decide (o = ip)
                   then default [] (ipConnections h2 !! ip) ++ [mkConnInfo res channel]
                   else default [] (ipConnections h2 !! o)).
Proof.
  intros h2. unfold subscribeClient. fold (evictSameOrigin ip h).
  fold (ensureChannel channel (evictSameOrigin ip h)). fold h2.
  exists (alter (fun s => s ++ [mkConnInfo res channel]) ip
            (match ipConnections h2 !! ip with
             | None => <[ip := []]> (ipConnections h2)
             | Some _ => ipConnections h2
             end)).
  split.
  - simpl. by destruct (ipConnections h2 !! ip).
  - intros o. rewrite lookup_alter.
    destruct (decide (ip = o)) as [<- | Hne].
    + rewrite decide_True by done.
      destruct (ipConnections h2 !! ip) eqn:Hip; simpl; rewrite ?Hip; [done |].
      by rewrite lookup_insert_eq.
    + rewrite decide_False by done.
      destruct (ipConnections h2 !! ip) eqn:Hip; simpl; [done |].
      by rewrite lookup_insert_ne.
Qed.

Lemma Inv_forget_origin trace h ip :
  Inv trace h ->
  (forall r, r ∈ indexedUnder h ip -> clientMap h !! r = None ∧ r ∈ destroyed h) ->
  Inv trace (with_ipConnections (delete ip (ipConnections h)) h).
Proof.
  intros [Hn Hm Hc Hi Hg Hl] Hgone. split; try done; unfold indexedUnder in *; simpl.
  - intros r ci Hci. destruct (Hc r ci Hci) as [Ho Hidx]. split; [done |].
    destruct (decide (ci_ip ci = ip)) as [Heq | Hne].
    + rewrite Heq in Hidx. destruct (Hgone r Hidx). congruence.
    + by rewrite lookup_delete_ne.
  - intros o conn. destruct (decide (o = ip)) as [-> | Hne].
    + rewrite lookup_delete_eq. set_solver.
    + rewrite lookup_delete_ne by done. apply Hi.
  - intros r o Ho. destruct (Hg r o Ho) as [? | [? | Hidx]]; auto.
    destruct (decide (o = ip)) as [-> | Hne].
    + right. left. by apply Hgone.
    + right. right. by rewrite lookup_delete_ne.
Qed.

(** After the eviction loop nothing is indexed under the origin, and what was
    indexed under it is destroyed and unregistered. *)
Lemma evictSameOrigin_spec trace ip h :
  Inv trace h ->
  let h1 := evictSameOrigin ip h in
  Inv trace h1
  ∧ ipConnections h1 !! ip = None
  ∧ (forall o, o <> ip -> ipConnections h1 !! o = ipConnections h !! o)
  ∧ (forall r, clientMap h1 !! r
               = if decide (r ∈ indexedUnder h ip) then None else clientMap h !! r)
  ∧ destroyed h1 = list_to_set (indexedUnder h ip) ∪ destroyed h
  ∧ closeListeners h1 = closeListeners h ∧ nextSink h1 = nextSink h
  ∧ channelCallbacks h1 = channelCallbacks h ∧ subscriberTopics h1 = subscriberTopics h
  ∧ redisCallbacks h1 = redisCallbacks h ∧ nextCallback h1 = nextCallback h
  ∧ dom (channels h1) = dom (channels h).
Proof.
  intros HI. unfold evictSameOrigin, indexedUnder.
  destruct (ipConnections h !! ip) as [conns|] eqn:Hip; simpl.
  - destruct (evictAll_spec trace conns h HI)
      as (HI' & Hip' & Hcm' & Hd' & Hls' & Hnx' & Hcb' & Hst' & Hrc' & Hnc' & Hdom').
    { intros conn ci Hin. eapply (inv_index _ _ HI ip). by rewrite Hip. }
    split; [| repeat split; try done].
    + apply Inv_forget_origin; [done |]. unfold indexedUnder. rewrite Hip', Hip. simpl.
      intros r Hr. rewrite Hcm', decide_True by done. split; [done |].
      rewrite Hd'. set_solver.
    + apply lookup_delete_eq.
    + intros o Hne. by rewrite lookup_delete_ne, Hip'.
  - split; [done |]. split; [done |]. split; [done |]. split; [| split; [| done]].
    + done.
    + set_solver.
Qed.

Lemma subscribe_registry channel callback h :
  let h' := subscribe channel callback h in
  channels h' = channels h ∧ clientMap h' = clientMap h
  ∧ ipConnections h' = ipConnections h ∧ destroyed h' = destroyed h
  ∧ closeListeners h' = closeListeners h ∧ nextSink h' = nextSink h.
Proof. unfold subscribe. by destruct (channelCallbacks h !! channel). Qed.

Lemma unsubscribe_registry channel callback h :
  let h' := unsubscribe channel callback h in
  channels h' = channels h ∧ clientMap h' = clientMap h
  ∧ ipConnections h' = ipConnections h ∧ destroyed h' = destroyed h
  ∧ closeListeners h' = closeListeners h ∧ nextSink h' = nextSink h
  ∧ redisCallbacks h' = redisCallbacks h ∧ nextCallback h' = nextCallback h.
Proof. unfold unsubscribe. repeat case_match; done. Qed.

Lemma ensureChannel_spec trace channel h :
  Inv trace h ->
  let h2 := ensureChannel channel h in
  Inv trace h2
  ∧ is_Some (channels h2 !! channel)
  ∧ (forall c, sinksOf h2 c = sinksOf h c)
  ∧ clientMap h2 = clientMap h ∧ ipConnections h2 = ipConnections h
  ∧ destroyed h2 = destroyed h ∧ closeListeners h2 = closeListeners h
  ∧ nextSink h2 = nextSink h.
Proof.
  intros HI h2.
  assert (Hf : channels h2 = match channels h !! channel with
                             | None => <[channel := []]> (channels h)
                             | Some _ => channels h
                             end
               ∧ clientMap h2 = clientMap h ∧ ipConnections h2 = ipConnections h
               ∧ destroyed h2 = destroyed h ∧ closeListeners h2 = closeListeners h
               ∧ nextSink h2 = nextSink h).
  { subst h2. unfold ensureChannel. destruct (channels h !! channel); [done |].
    match goal with |- context [subscribe ?c ?cb ?h0] =>
      destruct (subscribe_registry c cb h0) as (-> & -> & -> & -> & -> & ->) end.
    done. }
  destruct Hf as (Hf0 & Hf1 & Hf2 & Hf3 & Hf4 & Hf5).
  assert (Hs : forall c, sinksOf h2 c = sinksOf h c).
  { intros c. unfold sinksOf. rewrite Hf0.
    destruct (channels h !! channel) eqn:Hch; [done |].
    destruct (decide (c = channel)) as [-> | Hne].
    - by rewrite lookup_insert_eq, Hch.
    - by rewrite lookup_insert_ne. }
  split; [| split; [| done]].
  - eapply Inv_ext; [exact HI | try done ..].
    + intros o. by rewrite Hf2.
    + by rewrite Hf3.
  - rewrite Hf0. destruct (channels h !! channel) eqn:Hch; [by rewrite Hch |].
    by rewrite lookup_insert_eq.
Qed.

Lemma origins_app t1 t2 : origins (t1 ++ t2) = origins t1 ++ origins t2.
Proof.
  induction t1 as [|e t1 IH]; [done |]. destruct e; simpl; by rewrite IH.
Qed.

Lemma origins_snoc_lookup trace e r o :
  origins trace !! r = Some o -> origins (trace ++ [e]) !! r = Some o.
Proof. intros H. rewrite origins_app. by apply lookup_app_l_Some. Qed.

Lemma origins_snoc_new trace c cid ip :
  origins (trace ++ [Connect c cid ip]) !! length (origins trace) = Some ip.
Proof. rewrite origins_app. simpl. by apply list_lookup_middle. Qed.

(** One [Connect] turn: the invariant is kept, the new response is
    registered, and every response subscribed before under the same origin is
    destroyed and gone from the client map and from the origin index. *)
Lemma connect_spec trace channel cid ip h :
  Inv trace h ->
  let res := nextSink h in
  let h' := step h (Connect channel cid ip) in
  Inv (trace ++ [Connect channel cid ip]) h'
  ∧ res ∈ sinksOf h' channel
  ∧ clientMap h' !! res = Some (mkClientInfo cid channel ip)
  ∧ default [] (ipConnections h' !! ip) = [mkConnInfo res channel]
  ∧ (forall r, r <> res -> origins trace !! r = Some ip ->
               r ∈ destroyed h' ∧ clientMap h' !! r = None
               ∧ forall o, r ∉ indexedUnder h' o).
Proof.
  intros HI res h'.
  destruct (evictSameOrigin_spec trace ip h HI)
    as (HI1 & Hip1 & Hipo1 & Hcm1 & Hd1 & Hls1 & Hnx1 & _).
  set (h1 := evictSameOrigin ip h) in *.
  destruct (ensureChannel_spec trace channel h1 HI1)
    as (HI2 & Hch2 & Hs2 & Hcm2 & Hip2 & Hd2 & Hls2 & Hnx2).
  set (h2 := ensureChannel channel h1) in *.
  destruct (subscribeClient_parts channel res cid ip h) as (ips & Heq & Hips).
  fold h1 h2 in Heq, Hips.
  assert (Hres : res = length (origins trace)) by (subst res; apply HI).
  assert (Hfresh : forall o, origins trace !! res <> Some o).
  { intros o Ho. apply lookup_lt_Some in Ho. lia. }
  assert (Hnoip : default [] (ipConnections h2 !! ip) = []) by (by rewrite Hip2, Hip1).
  (* the fields of the final state *)
  assert (Hfin : (forall c, sinksOf h' c = if decide (c = channel)
                                           then Set_add res (sinksOf h2 channel)
                                           else sinksOf h2 c)
                 ∧ clientMap h' = <[res := mkClientInfo cid channel ip]> (clientMap h2)
                 ∧ ipConnections h' = ips
                 ∧ destroyed h' = destroyed h2
                 ∧ closeListeners h' = closeListeners h2 ++ [(res, channel)]
                 ∧ nextSink h' = S res).
  { subst h'. unfold step. fold res. rewrite Heq. simpl. repeat split; try done.
    intros c. unfold sinksOf. simpl. rewrite lookup_alter.
    destruct (decide (channel = c)) as [<- | Hne].
    - rewrite decide_True by done. destruct Hch2 as [l ->]. done.
    - by rewrite decide_False. }
  destruct Hfin as (Hsk & Hcm & Hip & Hd & Hls & Hnx).
  assert (Hold : forall r ci, clientMap h2 !! r = Some ci -> r <> res).
  { intros r ci Hci ->. destruct (inv_client _ _ HI2 _ _ Hci) as [Ho _]. by apply Hfresh in Ho. }
  assert (Hidx : forall o, indexedUnder h' o
                           = if decide (o = ip) then [res] else indexedUnder h2 o).
  { intros o. unfold indexedUnder. rewrite Hip, Hips.
    destruct (decide (o = ip)); [| done]. by rewrite Hnoip. }
  split; [| split; [| split; [| split]]].
  - split.
    + rewrite Hnx, Hres, origins_app, length_app. simpl. lia.
    + intros c r. rewrite Hsk, Hcm. intros Hr.
      assert (Hcase : r ∈ sinksOf h2 c ∨ (r = res ∧ c = channel)).
      { destruct (decide (c = channel)) as [-> | Hne]; [| by left].
        apply elem_of_Set_add in Hr. naive_solver. }
      destruct Hcase as [Hin | [-> ->]].
      * destruct (inv_member _ _ HI2 c r Hin) as (ci & Hci & Hcc).
        exists ci. rewrite lookup_insert_ne; [done |]. intros <-. by eapply Hold.
      * eexists. by rewrite lookup_insert_eq.
    + intros r ci. rewrite Hcm, Hidx.
      destruct (decide (r = res)) as [-> | Hne].
      * rewrite lookup_insert_eq. intros [= <-]. simpl. rewrite decide_True by done.
        split; [| set_solver].
        rewrite Hres. apply origins_snoc_new.
      * rewrite lookup_insert_ne by done. intros Hci.
        destruct (inv_client _ _ HI2 _ _ Hci) as [Ho Hin]. split.
        -- by apply origins_snoc_lookup.
        -- destruct (decide (ci_ip ci = ip)) as [Heq' | _]; [| done].
           unfold indexedUnder in Hin. rewrite Heq', Hnoip in Hin. set_solver.
    + intros o conn. rewrite Hip, Hips, Hcm.
      destruct (decide (o = ip)) as [-> | Hne].
      * rewrite Hnoip. simpl. rewrite list_elem_of_singleton. intros ->. simpl. split.
        -- rewrite Hres. apply origins_snoc_new.
        -- intros ci. rewrite lookup_insert_eq. by intros [= <-].
      * intros Hconn. destruct (inv_index _ _ HI2 _ _ Hconn) as [Ho Hcc]. split.
        -- by apply origins_snoc_lookup.
        -- intros ci. rewrite lookup_insert_ne; [apply Hcc |].
           intros Heq'. rewrite <- Heq' in Ho. by apply Hfresh in Ho.
    + intros r o. rewrite origins_app, Hcm, Hd, Hidx. intros Ho.
      destruct (decide (r = res)) as [-> | Hne].
      * left. rewrite lookup_insert_eq. by eexists.
      * rewrite lookup_insert_ne by done.
        assert (Ho' : origins trace !! r = Some o).
        { apply lookup_app_Some in Ho as [Ho | [Hge Ho]]; [done |].
          simpl in Ho. apply list_lookup_singleton_Some in Ho as [Hz _].
          fold res in Hres. lia. }
        destruct (inv_gone _ _ HI2 _ _ Ho') as [? | [? | Hin]]; auto.
        right. right. destruct (decide (o = ip)) as [-> | _]; [| done].
        unfold indexedUnder in Hin. rewrite Hnoip in Hin. set_solver.
    + intros r c. rewrite Hls, Hnx, Hcm, elem_of_app, list_elem_of_singleton.
      intros [Hin | [= -> ->]].
      * destruct (inv_listeners _ _ HI2 _ _ Hin) as [Hlt Hcc].
        assert (r <> res) by (fold res in Hres; lia).
        split; [fold res in Hres; lia |].
        intros ci. rewrite lookup_insert_ne by done. apply Hcc.
      * split; [lia |]. intros ci. rewrite lookup_insert_eq. by intros [= <-].
  - rewrite Hsk, decide_True by done. apply elem_of_Set_add. by right.
  - by rewrite Hcm, lookup_insert_eq.
  - by rewrite Hip, Hips, decide_True, Hnoip.
  - intros r Hne Ho.
    assert (Hcm_r : clientMap h' !! r = None).
    { rewrite Hcm, lookup_insert_ne, Hcm2, Hcm1 by done.
      destruct (decide (r ∈ indexedUnder h ip)) as [| Hnin]; [done |].
      destruct (clientMap h !! r) as [ci|] eqn:Hci; [| done].
      destruct (inv_client _ _ HI _ _ Hci) as [Ho' Hin].
      assert (ci_ip ci = ip) as Heq' by congruence. by rewrite Heq' in Hin. }
    split; [| split; [done |]].
    + rewrite Hd, Hd2, Hd1.
      destruct (inv_gone _ _ HI _ _ Ho) as [[ci Hci] | [? | Hin]]; [| set_solver | set_solver].
      destruct (inv_client _ _ HI _ _ Hci) as [Ho' Hin].
      assert (ci_ip ci = ip) as Heq' by congruence. rewrite Heq' in Hin. set_solver.
    + intros o. rewrite Hidx. destruct (decide (o = ip)) as [-> | Hno]; [set_solver |].
      unfold indexedUnder. rewrite Hip2, Hipo1 by done.
      intros Hin. apply list_elem_of_fmap in Hin as (conn & -> & Hconn).
      destruct (inv_index _ _ HI _ _ Hconn) as [Ho' _]. congruence.
Qed.

(** *** Unsubscribing keeps the invariant *)

Lemma elem_of_deleteFirst res conn conns :
  conn ∈ deleteFirst res conns -> conn ∈ conns.
Proof.
  induction conns as [|c conns IH]; simpl; [done |].
  destruct (decide (conn_res c = res)); set_solver.
Qed.

Lemma elem_of_deleteFirst_ne res conn conns :
  conn ∈ conns -> conn_res conn <> res -> conn ∈ deleteFirst res conns.
Proof.
  intros Hin Hne. induction conns as [|c conns IH]; simpl; [done |].
  destruct (decide (conn_res c = res)) as [Heq | _].
  - apply elem_of_cons in Hin as [-> | Hin]; [done | done].
  - set_solver.
Qed.

(** The registry after [unsubscribeClient], when the channel still has its
    set. *)
Lemma unsubscribeClient_registry channel res h clients :
  channels h !! channel = Some clients ->
  let h' := unsubscribeClient channel res h in
  (forall c, sinksOf h' c = if decide (c = channel) then Set_delete res clients
                            else sinksOf h c)
  ∧ clientMap h' = delete res (clientMap h)
  ∧ (forall o, default [] (ipConnections h' !! o)
               = match clientMap h !! res with
                 | Some info =>
                     if truthy (ci_ip info) && bool_decide (o = ci_ip info)
                     then deleteFirst res (default [] (ipConnections h !! o))
                     else default [] (ipConnections h !! o)
                 | None => default [] (ipConnections h !! o)
                 end)
  ∧ destroyed h' = destroyed h ∧ closeListeners h' = closeListeners h
  ∧ nextSink h' = nextSink h.
Proof.
  intros Hch h'. subst h'. unfold unsubscribeClient. rewrite Hch.
  set (h1 := with_channels _ h).
  set (h2 := match clientMap h !! res with Some _ => _ | None => _ end).
  assert (Hh2 : channels h2 = channels h1 ∧ clientMap h2 = clientMap h
                ∧ destroyed h2 = destroyed h ∧ closeListeners h2 = closeListeners h
                ∧ nextSink h2 = nextSink h ∧ redisCallbacks h2 = redisCallbacks h).
  { subst h2. repeat case_match; done. }
  destruct Hh2 as (Hc2 & Hm2 & Hd2 & Hl2 & Hn2 & Hr2).
  assert (Hip2 : forall o, default [] (ipConnections h2 !! o)
               = match clientMap h !! res with
                 | Some info =>
                     if truthy (ci_ip info) && bool_decide (o = ci_ip info)
                     then deleteFirst res (default [] (ipConnections h !! o))
                     else default [] (ipConnections h !! o)
                 | None => default [] (ipConnections h !! o)
                 end).
  { intros o. subst h2. destruct (clientMap h !! res) as [info|]; [| done].
    destruct (truthy (ci_ip info)); simpl; [| done].
    change (ipConnections h1) with (ipConnections h).
    destruct (bool_decide (o = ci_ip info)) eqn:Ho.
    - apply bool_decide_eq_true in Ho as ->.
      destruct (ipConnections h !! ci_ip info) as [ipConns|] eqn:Hip; simpl; [| by rewrite Hip].
      destruct (decide (length (deleteFirst res ipConns) = 0%nat)) as [Hlen | Hlen]; simpl.
      + rewrite lookup_delete_eq. simpl. apply length_zero_iff_nil in Hlen. by rewrite Hlen.
      + by rewrite lookup_insert_eq.
    - apply bool_decide_eq_false in Ho.
      destruct (ipConnections h !! ci_ip info) as [ipConns|] eqn:Hip; simpl; [| done].
      destruct (decide (length (deleteFirst res ipConns) = 0%nat)); simpl.
      + by rewrite lookup_delete_ne.
      + by rewrite lookup_insert_ne. }
  assert (Hsk : forall c, default [] (channels h1 !! c)
                          = if decide (c = channel) then Set_delete res clients else sinksOf h c).
  { intros c. subst h1. simpl. destruct (decide (c = channel)) as [-> | Hne].
    - by rewrite lookup_insert_eq.
    - by rewrite lookup_insert_ne. }
  destruct (decide (length (Set_delete res clients) = 0%nat)) as [Hlen | Hlen].
  - apply length_zero_iff_nil in Hlen.
    set (h3 := with_channels _ _).
    assert (Hfin : forall hf, channels hf = channels h3 -> clientMap hf = clientMap h3 ->
               ipConnections hf = ipConnections h3 -> destroyed hf = destroyed h3 ->
               closeListeners hf = closeListeners h3 -> nextSink hf = nextSink h3 ->
               (forall c, sinksOf hf c = if decide (c = channel) then Set_delete res clients
                                          else sinksOf h c)
               ∧ clientMap hf = delete res (clientMap h)
               ∧ (forall o, default [] (ipConnections hf !! o)
                            = default [] (ipConnections h2 !! o))
               ∧ destroyed hf = destroyed h ∧ closeListeners hf = closeListeners h
               ∧ nextSink hf = nextSink h).
    { intros hf E1 E2 E3 E4 E5 E6. unfold sinksOf. rewrite E1, E2, E3, E4, E5, E6.
      subst h3. simpl. rewrite Hm2, Hd2, Hl2, Hn2, Hc2. repeat split; try done.
      intros c. destruct (decide (c = channel)) as [-> | Hne].
      - by rewrite lookup_delete_eq, Hlen.
      - rewrite lookup_delete_ne by done. specialize (Hsk c).
        by rewrite decide_False in Hsk. }
    destruct (redisCallbacks h3 !! channel) as [callback|].
    + match goal with |- context [unsubscribe ?c ?cb ?h0] =>
        destruct (unsubscribe_registry c cb h0) as (U1 & U2 & U3 & U4 & U5 & U6 & _) end.
      match goal with |- context [with_redisCallbacks ?a ?b ?h0] =>
        destruct (Hfin (with_redisCallbacks a b h0)) as (F1 & F2 & F3 & F4 & F5 & F6);
          try done end.
      repeat split; try done; intros o; by rewrite F3, Hip2.
    + destruct (Hfin h3) as (F1 & F2 & F3 & F4 & F5 & F6); try done.
      all: repeat split; try done; intros o; by rewrite F3, Hip2.
  - simpl. rewrite Hm2, Hd2, Hl2, Hn2. repeat split; try done.
    intros c. unfold sinksOf at 1. simpl. rewrite Hc2. apply Hsk.
Qed.

Lemma Inv_unsubscribeClient trace channel res h :
  Inv trace h ->
  res ∈ destroyed h ->
  (forall ci, clientMap h !! res = Some ci -> ci_channel ci = channel) ->
  Inv trace (unsubscribeClient channel res h).
Proof.
  intros HI Hd Hcc.
  destruct (channels h !! channel) as [clients|] eqn:Hch.
  2:{ rewrite unsubscribeClient_absent; [done | by left]. }
  destruct (unsubscribeClient_registry channel res h clients Hch)
    as (Hsk & Hcm & Hip & Hds & Hls & Hnx).
  set (h' := unsubscribeClient channel res h) in *.
  assert (Hsub : forall o conn, conn ∈ default [] (ipConnections h' !! o) ->
                                conn ∈ default [] (ipConnections h !! o)).
  { intros o conn. rewrite Hip. repeat case_match; try done. apply elem_of_deleteFirst. }
  assert (Hkeep : forall o r, r <> res -> r ∈ indexedUnder h o -> r ∈ indexedUnder h' o).
  { intros o r Hne. unfold indexedUnder. rewrite Hip.
    repeat case_match; try done.
    rewrite !list_elem_of_fmap. intros (conn & -> & Hin). exists conn. split; [done |].
    by apply elem_of_deleteFirst_ne. }
  destruct HI as [Hn Hm Hc Hi Hg Hl]. split.
  - by rewrite Hnx.
  - intros c r. rewrite Hsk, Hcm. intros Hr.
    assert (Hin : r ∈ sinksOf h c ∧ r <> res).
    { destruct (decide (c = channel)) as [-> | Hne].
      - apply elem_of_Set_delete in Hr. unfold sinksOf. by rewrite Hch.
      - split; [done |]. intros ->. destruct (Hm c res Hr) as (ci & Hci & Hc').
        apply Hne. rewrite <- Hc'. by apply Hcc. }
    destruct Hin as [Hin Hne]. destruct (Hm c r Hin) as (ci & Hci & Hc').
    exists ci. by rewrite lookup_delete_ne.
  - intros r ci. rewrite Hcm, lookup_delete_Some. intros [Hne Hci].
    destruct (Hc r ci Hci) as [Ho Hin]. split; [done |]. by apply Hkeep.
  - intros o conn Hconn. destruct (Hi o conn (Hsub _ _ Hconn)) as [Ho Hc']. split; [done |].
    intros ci. rewrite Hcm, lookup_delete_Some. intros [_ Hci]. by apply Hc'.
  - intros r o Ho. rewrite Hcm, Hds.
    destruct (decide (r = res)) as [-> | Hne]; [by right; left |].
    rewrite lookup_delete_ne by done.
    destruct (Hg r o Ho) as [? | [? | ?]]; auto.
  - intros r c. rewrite Hls, Hnx, Hcm. intros Hrc. destruct (Hl r c Hrc) as [Hlt Hc'].
    split; [done |]. intros ci. rewrite lookup_delete_Some. intros [_ Hci]. by apply Hc'.
Qed.

Lemma Inv_runListeners trace res h :
  Inv trace h -> res ∈ destroyed h -> Inv trace (runListeners res h).
Proof.
  intros HI Hd. unfold runListeners.
  assert (Hgen : forall ls h0, Inv trace h0 -> res ∈ destroyed h0 ->
             (forall l, l ∈ ls -> l ∈ closeListeners h0) ->
             Inv trace (foldl (fun h l => if decide (l.1 = res)
                                          then unsubscribeClient l.2 res h else h) h0 ls)).
  { induction ls as [|[r c] ls IH]; intros h0 HI0 Hd0 Hls; simpl; [done |].
    destruct (decide (r = res)) as [-> | Hne].
    - assert (Hcc : forall ci, clientMap h0 !! res = Some ci -> ci_channel ci = c).
      { apply (inv_listeners _ _ HI0 res c). apply Hls. set_solver. }
      apply IH; [by apply Inv_unsubscribeClient | |].
      + destruct (channels h0 !! c) as [clients|] eqn:Hch.
        * destruct (unsubscribeClient_registry c res h0 clients Hch) as (_ & _ & _ & -> & _).
          done.
        * rewrite unsubscribeClient_absent; [done | by left].
      + intros l Hl. destruct (channels h0 !! c) as [clients|] eqn:Hch.
        * destruct (unsubscribeClient_registry c res h0 clients Hch)
            as (_ & _ & _ & _ & -> & _). apply Hls. set_solver.
        * rewrite unsubscribeClient_absent; [apply Hls; set_solver | by left].
    - apply IH; [done | done |]. intros l Hl. apply Hls. set_solver. }
  by apply Hgen.
Qed.

(** *** The fan-out keeps the invariant *)

Lemma sendTo_cases channel fails m h res :
  sendTo channel fails m h res
  = if fails res then dropSink res channel h
    else with_sinks (destroyed h) (closed h) (closeListeners h)
                    (written h ++ [(res, m)]) (nextSink h) h.
Proof. reflexivity. Qed.

Lemma Inv_sendTo trace channel fails m h res :
  Inv trace h ->
  (forall ci, clientMap h !! res = Some ci -> ci_channel ci = channel) ->
  Inv trace (sendTo channel fails m h res).
Proof.
  intros HI Hcc. rewrite sendTo_cases. destruct (fails res).
  - by apply Inv_dropSink.
  - by eapply Inv_ext.
Qed.

Lemma sendTo_clientMap channel fails m h res r ci :
  clientMap (sendTo channel fails m h res) !! r = Some ci -> clientMap h !! r = Some ci.
Proof.
  rewrite sendTo_cases. destruct (fails res); simpl; [| done].
  rewrite lookup_delete_Some. tauto.
Qed.

Lemma Inv_redisCallback trace channel fails message h :
  Inv trace h -> Inv trace (redisCallback channel fails message h).
Proof.
  intros HI. unfold redisCallback.
  destruct (channels h !! channel) as [clients|] eqn:Hch; [| done].
  assert (Hcc : forall r ci, r ∈ clients -> clientMap h !! r = Some ci ->
                             ci_channel ci = channel).
  { intros r ci Hr Hci. destruct (inv_member _ _ HI channel r) as (ci' & Hci' & Hc').
    - unfold sinksOf. by rewrite Hch.
    - congruence. }
  generalize (processMessage h message). intros m.
  clear Hch. revert h HI Hcc.
  induction clients as [|res clients IH]; intros h HI Hcc; simpl; [done |].
  apply IH.
  - apply Inv_sendTo; [done |]. intros ci. apply Hcc. set_solver.
  - intros r ci Hr Hci. apply (Hcc r ci); [set_solver |].
    by eapply sendTo_clientMap.
Qed.

(** *** Every turn keeps the invariant *)

Lemma Inv_step trace h e : Inv trace h -> Inv (trace ++ [e]) (step h e).
Proof.
  intros HI. destruct e as [channel cid ip | res | channel message failing].
  - apply (connect_spec trace channel cid ip h HI).
  - assert (HI' : forall h0, Inv trace h0 -> Inv (trace ++ [Close res]) h0).
    { intros h0 [Hn Hm Hc Hi Hg Hl].
      assert (Ho : origins (trace ++ [Close res]) = origins trace).
      { rewrite origins_app. simpl. apply app_nil_r. }
      split; rewrite ?Ho; done. }
    apply HI'. simpl. destruct (decide _) as [_ | _]; [| done].
    apply Inv_runListeners; [| simpl; set_solver].
    eapply Inv_ext; [exact HI | try done ..]. simpl. set_solver.
  - assert (HI' : forall h0, Inv trace h0 ->
                             Inv (trace ++ [BusMessage channel message failing]) h0).
    { intros h0 [Hn Hm Hc Hi Hg Hl].
      assert (Ho : origins (trace ++ [BusMessage channel message failing]) = origins trace).
      { rewrite origins_app. simpl. apply app_nil_r. }
      split; rewrite ?Ho; done. }
    apply HI'. simpl. destruct (channelCallbacks h !! channel) as [callbacks|]; [| done].
    revert h HI. induction callbacks as [|cb callbacks IH]; intros h HI; simpl; [done |].
    apply IH. by apply Inv_redisCallback.
Qed.

Lemma run_snoc baseUrl trace e : run baseUrl (trace ++ [e]) = step (run baseUrl trace) e.
Proof. unfold run. by rewrite foldl_app. Qed.

Lemma Inv_run baseUrl trace : Inv trace (run baseUrl trace).
Proof.
  induction trace as [|e trace IH] using rev_ind.
  - split; try done; unfold sinksOf, indexedUnder; simpl; intros *;
      rewrite ?lookup_empty; simpl; set_solver.
  - rewrite run_snoc. by apply Inv_step.
Qed.




(** *** What the fan-out leaves behind after a failed write *)

(** The fan-out never touches the origin index. *)
Lemma redisCallback_ipConnections channel fails message h :
  ipConnections (redisCallback channel fails message h) = ipConnections h.
Proof.
  unfold redisCallback. destruct (channels h !! channel) as [clients|]; [| done].
  generalize (processMessage h message). intros m. revert h.
  induction clients as [|res clients IH]; intros h; simpl; [done |].
  rewrite IH, sendTo_cases. by destruct (fails res).
Qed.

(** The fan-out never closes a bus subscription nor removes a channel's
    set. *)
Lemma redisCallback_subscriptions channel fails message h :
  let h' := redisCallback channel fails message h in
  channelCallbacks h' = channelCallbacks h ∧ subscriberTopics h' = subscriberTopics h
  ∧ redisCallbacks h' = redisCallbacks h ∧ dom (channels h') = dom (channels h).
Proof.
  unfold redisCallback. destruct (channels h !! channel) as [clients|]; [| done].
  generalize (processMessage h message). intros m. revert h.
  induction clients as [|res clients IH]; intros h; simpl; [done |].
  destruct (IH (sendTo channel fails m h res)) as (-> & -> & -> & ->).
  rewrite sendTo_cases. destruct (fails res); simpl; repeat split; try done.
  apply set_eq. intros c. rewrite !elem_of_dom, lookup_alter.
  destruct (decide (channel = c)); subst; rewrite ?fmap_is_Some; done.
Qed.

Definition example_message : Message :=
  {| msg_type := "view_change";
     msg_view := Some (mkView "A" (Some (mkMetadata "text" None None None)) [] 0) |}.

(** C6 at a failing write.  Two sinks of two origins on one channel; the
    write to the first throws.  The other sink receives the message and the
    failed sink leaves the channel's set and the client map, but its entry in
    the origin index ([ipConnections]) is still there. *)
Theorem write_failure_stays_in_origin_index :
  let h := run "http://srv"
               [Connect "lobby" "c1" "10.0.0.1"; Connect "lobby" "c2" "10.0.0.2";
                BusMessage "lobby" example_message [0%nat]] in
  sinksOf h "lobby" = [1%nat]
  ∧ written h = [(1%nat, example_message)]
  ∧ clientMap h !! 0%nat = None
  ∧ ipConnections h !! "10.0.0.1" = Some [mkConnInfo 0%nat "lobby"].
Proof. vm_compute. repeat split; reflexivity. Qed.

(** C8 at a failing write.  The only sink of a channel is dropped by a
    failed write: the channel's set is empty, yet the bus subscription for
    its topic is still held. *)
Theorem write_failure_keeps_subscription :
  let h := run "http://srv"
               [Connect "lobby" "c1" "10.0.0.1";
                BusMessage "lobby" example_message [0%nat]] in
  channels h !! "lobby" = Some []
  ∧ channelCallbacks h !! "lobby" = Some [mkCallback 0%nat "lobby"]
  ∧ redisCallbacks h !! "lobby" = Some (mkCallback 0%nat "lobby")
  ∧ subscriberTopics h = {["lobby"]}.
Proof. vm_compute. repeat split; reflexivity. Qed.

(** The same state is reached when the only sink of a channel is evicted by
    a subscription of its origin to another channel, until the evicted
    response's ['close'] event has run. *)
Lemma eviction_keeps_subscription :
  let h := run "http://srv"
               [Connect "lobby" "c1" "10.0.0.1"; Connect "hall" "c2" "10.0.0.1"] in
  channels h !! "lobby" = Some []
  ∧ channelCallbacks h !! "lobby" = Some [mkCallback 0%nat "lobby"]
  ∧ channels (step h (Close 0%nat)) !! "lobby" = None
  ∧ channelCallbacks (step h (Close 0%nat)) !! "lobby" = None.
Proof. vm_compute. repeat split; reflexivity. Qed.

(** *** Delivery *)

Lemma sendAll_spec channel fails m (l : list Sink) : forall h cur,
  channels h !! channel = Some cur ->
  let h' := foldl (sendTo channel fails m) h l in
  written h' = written h ++ ((fun r => (r, m)) <$> List.filter (fun r => negb (fails r)) l)
  ∧ (exists cur', channels h' !! channel = Some cur'
                  ∧ forall r, r ∈ cur' <-> r ∈ cur ∧ ¬ (r ∈ l ∧ fails r = true))
  ∧ (forall r, clientMap h' !! r
               = if bool_decide (r ∈ l) && fails r then None else clientMap h !! r)
  ∧ (forall c, c <> channel -> channels h' !! c = channels h !! c).
Proof.
  induction l as [|res l IH]; intros h cur Hcur; cbn [foldl].
  - split; [by rewrite app_nil_r |]. split; [| split; [| done]].
    + exists cur. split; [done |]. intros r. set_solver.
    + intros r. rewrite bool_decide_eq_false_2; [done | set_solver].
  - rewrite sendTo_cases. destruct (fails res) eqn:Hf.
    + destruct (IH (dropSink res channel h) (Set_delete res cur))
        as (Hw & (cur' & Hc' & Hmem) & Hcm & Hoth).
      { unfold dropSink. simpl. by rewrite lookup_alter, decide_True, Hcur. }
      split; [| split; [| split]].
      * rewrite Hw. simpl. by rewrite Hf.
      * exists cur'. split; [done |]. intros r. rewrite Hmem, elem_of_Set_delete.
        split.
        -- intros [[Hr Hne] Hno]. split; [done |]. intros [Hin Hfr].
           apply elem_of_cons in Hin as [-> | Hin]; [done | by apply Hno].
        -- intros [Hr Hno]. split; [split; [done |] |].
           ++ intros ->. apply Hno. split; [set_solver | done].
           ++ intros [Hin Hfr]. apply Hno. split; [set_solver | done].
      * intros r. rewrite Hcm. unfold dropSink. simpl.
        destruct (decide (r = res)) as [-> | Hne].
        -- rewrite lookup_delete_eq, (bool_decide_eq_true_2 (res ∈ res :: l)) by set_solver.
           rewrite Hf. by destruct (bool_decide _ && true).
        -- rewrite lookup_delete_ne by done.
           destruct (fails r); [| by rewrite !andb_false_r].
           rewrite !andb_true_r.
           destruct (decide (r ∈ l)).
           ++ by rewrite !bool_decide_eq_true_2 by set_solver.
           ++ by rewrite !bool_decide_eq_false_2 by set_solver.
      * intros c Hc. rewrite Hoth by done. unfold dropSink. simpl.
        by rewrite lookup_alter, decide_False.
    + destruct (IH (with_sinks (destroyed h) (closed h) (closeListeners h)
                               (written h ++ [(res, m)]) (nextSink h) h) cur Hcur)
        as (Hw & (cur' & Hc' & Hmem) & Hcm & Hoth).
      split; [| split; [| split]].
      * rewrite Hw. simpl. rewrite Hf. simpl. by rewrite <- app_assoc.
      * exists cur'. split; [done |]. intros r. rewrite Hmem. split.
        -- intros [Hr Hno]. split; [done |]. intros [Hin Hfr].
           apply elem_of_cons in Hin as [-> | Hin]; [congruence | by apply Hno].
        -- intros [Hr Hno]. split; [done |]. intros [Hin Hfr]. apply Hno.
           split; [set_solver | done].
      * intros r. rewrite Hcm. simpl.
        destruct (fails r) eqn:Hfr; [| by rewrite !andb_false_r].
        rewrite !andb_true_r.
        destruct (decide (r ∈ l)).
        -- by rewrite !bool_decide_eq_true_2 by set_solver.
        -- rewrite !bool_decide_eq_false_2; [done | | done].
           intros Hin. apply elem_of_cons in Hin as [-> | ?]; [congruence | done].
      * intros c Hc. by rewrite Hoth.
Qed.

(** X9. One fan-out of a message to a channel: every sink of the channel
    whose write succeeds is written the processed message once, in the order
    of the set; exactly the sinks whose write throws leave the channel's set
    and the client map; the sets of the other channels are untouched. *)
Theorem redisCallback_delivery (channel : string) (fails : Sink -> bool)
    (message : Message) (h : Hub) (clients : list Sink) :
  channels h !! channel = Some clients ->
  let h' := redisCallback channel fails message h in
  written h'
  = written h ++ ((fun r => (r, processMessage h message))
                    <$> List.filter (fun r => negb (fails r)) clients)
  ∧ (forall r, r ∈ sinksOf h' channel <-> r ∈ clients ∧ fails r = false)
  ∧ (forall r, clientMap h' !! r
               = if bool_decide (r ∈ clients) && fails r then None else clientMap h !! r)
  ∧ (forall c, c <> channel -> channels h' !! c = channels h !! c).
Proof.
  intros Hch. unfold redisCallback. rewrite Hch.
  destruct (sendAll_spec channel fails (processMessage h message) clients h clients Hch)
    as (Hw & (cur' & Hc' & Hmem) & Hcm & Hoth).
  split; [done |]. split; [| split; [done | done]].
  intros r. unfold sinksOf. rewrite Hc'. simpl. rewrite Hmem.
  destruct (fails r); split; intros [Hr Hx]; split; try done.
  - exfalso. by apply Hx.
  - intros [_ ?]. done.
Qed.

Lemma redisCallback_delivery_witness :
  let h := run "http://srv" [Connect "lobby" "c1" "10.0.0.1"; Connect "lobby" "c2" "10.0.0.2"] in
  written (redisCallback "lobby" (fun r => bool_decide (r = 0%nat)) example_message h)
  = [(1%nat, example_message)].
Proof.
  intros h.
  destruct (redisCallback_delivery "lobby" (fun r => bool_decide (r = 0%nat)) example_message
              h [0%nat; 1%nat] eq_refl) as (Hw & _).
  exact Hw.
Defined.

(** *** Image URLs *)

Lemma assocGet_assocSet k v o : assocGet k (assocSet k v o) = Some v.
Proof.
  induction o as [|[k' v'] o IH]; simpl.
  - by rewrite String.eqb_refl.
  - destruct (String.eqb k' k) eqn:Hk; simpl; [by rewrite String.eqb_refl |].
    by rewrite Hk.
Qed.

Lemma stringIncludes_app needle a b :
  stringIncludes needle (a ++ needle ++ b)%string = true.
Proof.
  induction a as [|c a IH]; simpl.
  - assert (Hp : String.prefix needle (needle ++ b)%string = true).
    { induction needle as [|n needle IHn]; simpl; [by destruct b |].
      destruct (ascii_dec n n); [apply IHn | done]. }
    destruct (needle ++ b)%string; simpl in *; by rewrite Hp.
  - rewrite IH. apply orb_true_r.
Qed.

(** X10. [rewriteImageUrls] is idempotent: a view whose URL has been
    rewritten to the proxy form is left alone by a second pass. *)
Theorem rewriteImageUrls_idempotent (baseUrl : string) (view : View) :
  rewriteImageUrls baseUrl (rewriteImageUrls baseUrl view) = rewriteImageUrls baseUrl view.
Proof.
  unfold rewriteImageUrls at 2.
  destruct (metadata view) as [md|] eqn:Hmd; simpl.
  2:{ unfold rewriteImageUrls. by rewrite Hmd. }
  destruct (assocGet "url" (data view)) as [url|] eqn:Hurl.
  2:{ unfold rewriteImageUrls. rewrite Hmd. simpl. by rewrite Hurl. }
  destruct (_ && negb (stringIncludes "/api/proxy/image/" url)) eqn:Hcond.
  - unfold rewriteImageUrls. simpl. rewrite Hmd. simpl. rewrite assocGet_assocSet.
    rewrite (stringIncludes_app "/api/proxy/image/" baseUrl (encodeURIComponent url)).
    simpl. rewrite andb_false_r. by rewrite Hurl, Hcond.
  - unfold rewriteImageUrls. rewrite Hmd. simpl. by rewrite Hurl, Hcond.
Qed.

End ChannelManager.

(* ===================================================================== *)
(** ** services/channelConfig.js, services/viewManager.js                 *)
(* ===================================================================== *)

Module ViewManager.
Import JS ViewSchema.
Local Open Scope list_scope.

(** *** services/channelConfig.js *)

(** [config.channels[channel]]: only [views] is read here. *)
Record ChannelEntry := mkEntry { entry_views : option (list string) }.

(** [this.config]; [None] is a configuration that is not loaded or has no
    [channels]. *)
Record ChannelConfig := mkConfig { config : option (gmap string ChannelEntry) }.

Definition getChannelViews (cfg : ChannelConfig) (channel : string) : list string :=
  match config cfg with
  | Some chs =>
      match chs !! channel with
      | Some entry => default [] (entry_views entry)
      | None => []
      end
  | None => []
  end.

(** *** The state of the view manager *)

(** [{ timeout, delay }] in [channelRotations]; [timeout] is the handle
    [setTimeout] returned. *)
Record Rotation := mkRotation { timeout : nat; delay : Z }.

(** An armed timeout of [scheduleViewRotation]: the view and channel its
    callback closes over. *)
Record Timer := mkTimer { timer_view : string; timer_channel : string; timer_delay : Z }.

(** A call of the async [broadcastViewChange] that has run up to its first
    [await]: the channel and the view [getCurrentView] gave it. *)
Record Broadcast := mkBroadcast { bc_channel : string; bc_view : View }.

Record ViewManager := mkViewManager {
  currentView : option string;
  channelCurrentViews : gmap string string;
  viewActivationTime : gmap string (gmap string Z);
  views : gmap string View;
  channelRotations : gmap string Rotation;
  manualOverrides : gmap string (gmap string Z);
  (* the event loop: armed timeouts and started broadcasts *)
  timers : gmap nat Timer;
  nextTimer : nat;
  broadcasts : list Broadcast
}.

Definition with_currentView (v : option string) (vm : ViewManager) : ViewManager :=
  {| currentView := v; channelCurrentViews := channelCurrentViews vm;
     viewActivationTime := viewActivationTime vm; views := views vm;
     channelRotations := channelRotations vm; manualOverrides := manualOverrides vm;
     timers := timers vm; nextTimer := nextTimer vm; broadcasts := broadcasts vm |}.

Definition with_channelCurrentViews (m : gmap string string) (vm : ViewManager) : ViewManager :=
  {| currentView := currentView vm; channelCurrentViews := m;
     viewActivationTime := viewActivationTime vm; views := views vm;
     channelRotations := channelRotations vm; manualOverrides := manualOverrides vm;
     timers := timers vm; nextTimer := nextTimer vm; broadcasts := broadcasts vm |}.

Definition with_viewActivationTime (m : gmap string (gmap string Z)) (vm : ViewManager)
    : ViewManager :=
  {| currentView := currentView vm; channelCurrentViews := channelCurrentViews vm;
     viewActivationTime := m; views := views vm;
     channelRotations := channelRotations vm; manualOverrides := manualOverrides vm;
     timers := timers vm; nextTimer := nextTimer vm; broadcasts := broadcasts vm |}.

Definition with_manualOverrides (m : gmap string (gmap string Z)) (vm : ViewManager)
    : ViewManager :=
  {| currentView := currentView vm; channelCurrentViews := channelCurrentViews vm;
     viewActivationTime := viewActivationTime vm; views := views vm;
     channelRotations := channelRotations vm; manualOverrides := m;
     timers := timers vm; nextTimer := nextTimer vm; broadcasts := broadcasts vm |}.

Definition with_timers (t : gmap nat Timer) (vm : ViewManager) : ViewManager :=
  {| currentView := currentView vm; channelCurrentViews := channelCurrentViews vm;
     viewActivationTime := viewActivationTime vm; views := views vm;
     channelRotations := channelRotations vm; manualOverrides := manualOverrides vm;
     timers := t; nextTimer := nextTimer vm; broadcasts := broadcasts vm |}.

Definition with_rotation (r : gmap string Rotation) (t : gmap nat Timer) (next : nat)
    (vm : ViewManager) : ViewManager :=
  {| currentView := currentView vm; channelCurrentViews := channelCurrentViews vm;
     viewActivationTime := viewActivationTime vm; views := views vm;
     channelRotations := r; manualOverrides := manualOverrides vm;
     timers := t; nextTimer := next; broadcasts := broadcasts vm |}.

Definition with_broadcasts (b : list Broadcast) (vm : ViewManager) : ViewManager :=
  {| currentView := currentView vm; channelCurrentViews := channelCurrentViews vm;
     viewActivationTime := viewActivationTime vm; views := views vm;
     channelRotations := channelRotations vm; manualOverrides := manualOverrides vm;
     timers := timers vm; nextTimer := nextTimer vm; broadcasts := b |}.

(** How a call ends: normally, or by throwing; either way it leaves a
    state behind. *)
Inductive Outcome (A : Type) :=
| Ok (a : A)
| Throw (message : string) (a : A).
Arguments Ok {A} a.
Arguments Throw {A} message a.

(** *** services/viewManager.js *)

(** A [channel] argument that passes [if (channel)]. *)
Definition truthyChannel (channel : option string) : option string :=
  match channel with
  | Some c => if truthy c then Some c else None
  | None => None
  end.

Definition has (vm : ViewManager) (id : string) : bool :=
  bool_decide (is_Some (views vm !! id)).

(** [isViewScheduled(this.views.get(id))] for an [id] that passed
    [this.views.has(id)]. *)
Definition scheduledNow (vm : ViewManager) (now : Date) (id : string) : bool :=
  match views vm !! id with
  | Some view => isViewScheduled view now
  | None => false
  end.

(** [channelViews.filter(id => this.views.has(id))
                 .filter(id => isViewScheduled(this.views.get(id)))]. *)
Definition existingScheduledViews (cfg : ChannelConfig) (channel : string) (now : Date)
    (vm : ViewManager) : list string :=
  List.filter (scheduledNow vm now) (List.filter (has vm) (getChannelViews cfg channel)).

(** [overrideInfo && overrideInfo.has(viewId)]. *)
Definition isManuallyOverridden (vm : ViewManager) (channel viewId : string) : bool :=
  match manualOverrides vm !! channel with
  | Some overrideInfo => bool_decide (is_Some (overrideInfo !! viewId))
  | None => false
  end.

(** The tail of [getCurrentView]: the first existing and scheduled view of
    the channel becomes current. *)
Definition selectFirstScheduled (cfg : ChannelConfig) (channel : string) (now : Date)
    (vm : ViewManager) : option View * ViewManager :=
  match existingScheduledViews cfg channel now vm with
  | first :: _ =>
      match views vm !! first with
      | Some firstView =>
          (Some firstView,
           with_channelCurrentViews (<[channel := first]> (channelCurrentViews vm)) vm)
      | None => (None, vm)
      end
  | [] => (None, vm)
  end.

(** [getCurrentView(channel)]; the clock reading is [now].  The result is the
    copy [{ ...view }], or [None] for [null]. *)
Definition getCurrentView (cfg : ChannelConfig) (channel : option string) (now : Date)
    (vm : ViewManager) : option View * ViewManager :=
  match truthyChannel channel with
  | Some channel =>
      let channelViews := getChannelViews cfg channel in
      match channelCurrentViews vm !! channel with
      | Some viewId =>
          if truthy viewId && has vm viewId && includes channelViews viewId then
            match views vm !! viewId with
            | Some view =>
                if isManuallyOverridden vm channel viewId then (Some view, vm)
                else if negb (isViewScheduled view now)
                     then selectFirstScheduled cfg channel now vm
                     else (Some view, vm)
            | None => selectFirstScheduled cfg channel now vm
            end
          else selectFirstScheduled cfg channel now vm
      | None => selectFirstScheduled cfg channel now vm
      end
  | None =>
      (* Legacy: global current view *)
      match currentView vm with
      | Some id => if truthy id then (views vm !! id, vm) else (None, vm)
      | None => (None, vm)
      end
  end.

(** [broadcastViewChange(channel)] up to its first [await]: the view is
    fetched with [getCurrentView]; when there is one, the rest of the call
    (enrichment and [publish]) is a started broadcast. *)
Definition broadcastViewChange (cfg : ChannelConfig) (channel : option string) (now : Date)
    (vm : ViewManager) : ViewManager :=
  let targetChannel := default "kiosk" (truthyChannel channel) in
  let '(view, vm) := getCurrentView cfg (Some targetChannel) now vm in
  match view with
  | Some view =>
      with_broadcasts (broadcasts vm ++ [mkBroadcast targetChannel view]) vm
  | None => vm
  end.

(** What a started broadcast goes on to do, given the gallery store
    ([images id] is the number of images of gallery [id], [None] a failed
    lookup): skip an empty gallery by calling [nextView], or publish a
    [view_change] event for the (enriched) view. *)
Inductive BroadcastEnd :=
| Publishes (topic : string) (type_ : string) (view : View)
| CallsNextView (channel : string)
| Rejects.

Definition isGallery (view : View) : bool :=
  match metadata view with
  | Some md => String.eqb (type md) "gallery"
  | None => false
  end.

Definition broadcastEnd (images : string -> option nat) (b : Broadcast) : BroadcastEnd :=
  if isGallery (bc_view b) then
    match images (view_id (bc_view b)) with
    | Some O => CallsNextView (bc_channel b)
    | Some _ => Publishes (bc_channel b) "view_change" (bc_view b)
    | None => Rejects
    end
  else Publishes (bc_channel b) "view_change" (bc_view b).

(** [clearTimeout(handle)]. *)
Definition clearTimeout (handle : nat) (vm : ViewManager) : ViewManager :=
  with_timers (delete handle (timers vm)) vm.

(** The [delay] computed from [rotateAfter] or [rotateAt]; [None] is [null]. *)
Definition rotationDelay (md : Metadata) (now : Date) : option Z :=
  match rotateAfter md with
  | Some d => Some d
  | None =>
      match rotateAt md with
      | Some s => if truthy s then parseRotateAt s now else None
      | None => None
      end
  end.

(** [scheduleViewRotation(viewId, channel)]: the callback handed to
    [setTimeout] is recorded as the [Timer] of the new handle. *)
Definition scheduleViewRotation (cfg : ChannelConfig) (viewId channel : string) (now : Date)
    (vm : ViewManager) : ViewManager :=
  match views vm !! viewId with
  | None => vm
  | Some view =>
      match metadata view with
      | None => vm
      | Some md =>
          (* Clear any existing timeout for this channel *)
          let rotation := channelRotations vm !! channel in
          let vm := match rotation with
                    | Some r => clearTimeout (timeout r) vm
                    | None => vm
                    end in
          match rotationDelay md now with
          | Some delay_ =>
              if 0 <? delay_ then
                let scheduledViews := existingScheduledViews cfg channel now vm in
                if (length scheduledViews <=? 1)%nat then vm
                else
                  let handle := nextTimer vm in
                  with_rotation (<[channel := mkRotation handle delay_]> (channelRotations vm))
                                (<[handle := mkTimer viewId channel delay_]> (timers vm))
                                (S handle) vm
              else vm
          | None => vm
          end
      end
  end.

Definition setTime (key0 key1 : string) (t : Z) (m : gmap string (gmap string Z))
    : gmap string (gmap string Z) :=
  <[key0 := <[key1 := t]> (default ∅ (m !! key0))]> m.

(** [setCurrentView(id, channel, isManualTrigger)]. *)
Definition setCurrentView (cfg : ChannelConfig) (id : string) (channel : option string)
    (isManualTrigger : bool) (now : Date) (vm : ViewManager) : Outcome ViewManager :=
  match views vm !! id with
  | None => Throw ("View " ++ id ++ " does not exist") vm
  | Some view =>
      match truthyChannel channel with
      | Some channel =>
          (* Validate view belongs to channel *)
          let channelViews := getChannelViews cfg channel in
          if negb (includes channelViews id) then
            Throw ("View " ++ id ++ " is not configured for channel " ++ channel) vm
          else
            (* Track activation time *)
            let vm := with_viewActivationTime
                        (setTime channel id (getTime now) (viewActivationTime vm)) vm in
            (* If manually triggered, mark as override *)
            let vm := if isManualTrigger
                      then with_manualOverrides
                             (setTime channel id (getTime now) (manualOverrides vm)) vm
                      else vm in
            let vm := with_channelCurrentViews (<[channel := id]> (channelCurrentViews vm)) vm in
            let vm := broadcastViewChange cfg (Some channel) now vm in
            (* Schedule rotation based on view metadata *)
            Ok (scheduleViewRotation cfg id channel now vm)
      | None =>
          (* Legacy: global current view *)
          let vm := with_currentView (Some id) vm in
          Ok (broadcastViewChange cfg None now vm)
      end
  end.

(** [overrideInfo.delete(viewId); if (overrideInfo.size === 0)
    this.manualOverrides.delete(channel)], [overrideInfo] being the map held
    for the channel. *)
Definition clearOverride (viewId channel : string) (vm : ViewManager) : ViewManager :=
  match manualOverrides vm !! channel with
  | Some overrideInfo =>
      let overrideInfo := delete viewId overrideInfo in
      if decide (size overrideInfo = 0%nat)
      then with_manualOverrides (delete channel (manualOverrides vm)) vm
      else with_manualOverrides (<[channel := overrideInfo]> (manualOverrides vm)) vm
  | None => vm
  end.

(** A gallery view for which [getGalleryImages] returns no image; a failed
    lookup is caught and the view is taken as it is. *)
Definition isEmptyGallery (images : string -> option nat) (vm : ViewManager) (id : string)
    : bool :=
  match views vm !! id with
  | Some view => isGallery view && bool_decide (images id = Some O)
  | None => false
  end.

(** The [while (attempts < currentExistingViews.length)] walk: [remaining]
    is the number of attempts left; the result is the view to rotate to, or
    [None] when every candidate was an empty gallery. *)
Fixpoint walk (images : string -> option nat) (vm : ViewManager) (candidates : list string)
    (remaining nextIndex : nat) : option string :=
  match remaining with
  | O => None
  | S remaining' =>
      match candidates !! nextIndex with
      | Some nextViewId =>
          if isEmptyGallery images vm nextViewId
          then walk images vm candidates remaining' ((nextIndex + 1) mod length candidates)%nat
          else Some nextViewId
      | None => None
      end
  end.

(** The callback [scheduleViewRotation] hands to [setTimeout], run as one
    turn. *)
Definition rotationTimeout (cfg : ChannelConfig) (images : string -> option nat)
    (viewId channel : string) (now : Date) (vm : ViewManager) : Outcome ViewManager :=
  if bool_decide (channelCurrentViews vm !! channel = Some viewId) then
    (* Check if this view was manually triggered (override active) *)
    let overrideInfo := manualOverrides vm !! channel in
    let rotate (vm : ViewManager) : Outcome ViewManager :=
      let currentExistingViews := existingScheduledViews cfg channel now vm in
      match currentExistingViews with
      | [] => Ok vm
      | _ :: _ =>
          let currentIndex := indexOf currentExistingViews viewId in
          let nextIndex :=
            Z.to_nat ((currentIndex + 1) mod Z.of_nat (length currentExistingViews)) in
          match walk images vm currentExistingViews (length currentExistingViews) nextIndex with
          | Some nextViewId =>
              (* Clear any manual override when rotating to a new view *)
              let vm := match overrideInfo with
                        | Some _ => clearOverride viewId channel vm
                        | None => vm
                        end in
              match setCurrentView cfg nextViewId (Some channel) false now vm with
              | Ok vm' => Ok vm'
              | Throw _ vm' => Ok vm'
              end
          | None => Ok vm
          end
      end in
    if isManuallyOverridden vm channel viewId then
      match views vm !! viewId with
      | Some view =>
          if isViewScheduled view now then
            (* View is still scheduled, keep showing it (override persists) *)
            Ok (scheduleViewRotation cfg viewId channel now vm)
          else
            (* View is no longer scheduled, clear override and allow rotation *)
            rotate (clearOverride viewId channel vm)
      | None => Throw "TypeError: Cannot read properties of undefined (reading 'metadata')" vm
      end
    else rotate vm
  else Ok vm.

(** A timeout fires: it leaves the set of armed timeouts and its callback
    runs. *)
Definition fire (cfg : ChannelConfig) (images : string -> option nat) (handle : nat)
    (now : Date) (vm : ViewManager) : Outcome ViewManager :=
  match timers vm !! handle with
  | Some t =>
      rotationTimeout cfg images (timer_view t) (timer_channel t) now
                      (with_timers (delete handle (timers vm)) vm)
  | None => Ok vm
  end.

(** The view manager as constructed. *)
Definition new (vs : gmap string View) : ViewManager :=
  {| currentView := None; channelCurrentViews := ∅; viewActivationTime := ∅;
     views := vs; channelRotations := ∅; manualOverrides := ∅;
     timers := ∅; nextTimer := 0%nat; broadcasts := [] |}.

(** *** Selection *)

(** The current view of the channel is set, exists and is a member. *)
Definition validCurrent (cfg : ChannelConfig) (channel : string) (vm : ViewManager)
    (viewId : string) (view : View) : Prop :=
  channelCurrentViews vm !! channel = Some viewId ∧ viewId <> ""
  ∧ views vm !! viewId = Some view ∧ viewId ∈ getChannelViews cfg channel.

(** A view id that names an existing view eligible at [now]. *)
Definition eligibleId (vm : ViewManager) (now : Date) (id : string) : Prop :=
  exists view, views vm !! id = Some view ∧ isViewScheduled view now = true.

(** [id] is the first member of the channel, in configured order, that
    exists and is eligible; [view] is the view it names. *)
Definition firstEligible (cfg : ChannelConfig) (channel : string) (now : Date)
    (vm : ViewManager) (id : string) (view : View) : Prop :=
  exists i, getChannelViews cfg channel !! i = Some id
            ∧ views vm !! id = Some view ∧ isViewScheduled view now = true
            ∧ forall j id', (j < i)%nat -> getChannelViews cfg channel !! j = Some id' ->
                            ¬ eligibleId vm now id'.

Definition noneEligible (cfg : ChannelConfig) (channel : string) (now : Date)
    (vm : ViewManager) : Prop :=
  forall id, id ∈ getChannelViews cfg channel -> ¬ eligibleId vm now id.

(** The call re-selects: there is no valid current view, or it is neither
    overridden nor eligible. *)
Definition fallsThrough (cfg : ChannelConfig) (channel : string) (now : Date)
    (vm : ViewManager) : Prop :=
  (¬ exists viewId view, validCurrent cfg channel vm viewId view)
  ∨ (exists viewId view, validCurrent cfg channel vm viewId view
                         ∧ isManuallyOverridden vm channel viewId = false
                         ∧ isViewScheduled view now = false).

Lemma has_spec vm id : has vm id = true <-> is_Some (views vm !! id).
Proof. unfold has. apply bool_decide_eq_true. Qed.

Lemma eligible_spec vm now id :
  has vm id && scheduledNow vm now id = true <-> eligibleId vm now id.
Proof.
  unfold eligibleId, scheduledNow. rewrite andb_true_iff, has_spec.
  destruct (views vm !! id) as [view|]; split.
  - intros [_ H]. by exists view.
  - intros (v & [= <-] & H). split; [by eexists | done].
  - intros [[? ?] _]. done.
  - intros (v & ? & _). done.
Qed.

Lemma filter_filter_andb {A} (p q : A -> bool) (l : list A) :
  List.filter q (List.filter p l) = List.filter (fun x => p x && q x) l.
Proof.
  induction l as [|x l IH]; [done |]. simpl.
  destruct (p x); simpl; [destruct (q x) |]; by rewrite IH.
Qed.

(** The head of a filtered list is the first element that passes. *)
Lemma filter_head {A} (p : A -> bool) (l : list A) :
  match List.filter p l with
  | x :: _ => exists i, l !! i = Some x ∧ p x = true
                        ∧ forall j y, (j < i)%nat -> l !! j = Some y -> p y = false
  | [] => forall y, y ∈ l -> p y = false
  end.
Proof.
  induction l as [|a l IH]; simpl.
  - intros y Hy. by apply elem_of_nil in Hy.
  - destruct (p a) eqn:Ha.
    + exists 0%nat. repeat split; [done |]. intros j y Hj. lia.
    + destruct (List.filter p l) as [|x rest].
      * intros y Hy. apply elem_of_cons in Hy as [-> | Hy]; auto.
      * destruct IH as (i & Hi & Hx & Hbefore). exists (S i). repeat split; [done | done |].
        intros [|j] y Hj Hy; simpl in Hy.
        -- by injection Hy as <-.
        -- apply (Hbefore j); [lia | done].
Qed.

Lemma selectFirstScheduled_spec cfg channel now vm :
  match selectFirstScheduled cfg channel now vm with
  | (Some view, vm') =>
      exists id, firstEligible cfg channel now vm id view
                 ∧ vm' = with_channelCurrentViews (<[channel := id]> (channelCurrentViews vm)) vm
  | (None, vm') => noneEligible cfg channel now vm ∧ vm' = vm
  end.
Proof.
  unfold selectFirstScheduled, existingScheduledViews. rewrite filter_filter_andb.
  pose proof (filter_head (fun x => has vm x && scheduledNow vm now x)
                          (getChannelViews cfg channel)) as H.
  destruct (List.filter _ _) as [|first rest].
  - split; [| done]. intros id Hid Hel. apply eligible_spec in Hel.
    rewrite (H id Hid) in Hel. done.
  - destruct H as (i & Hi & Hp & Hbefore).
    apply eligible_spec in Hp as (view & Hview & Hsch). rewrite Hview.
    exists first. split; [| done]. exists i. repeat split; try done.
    intros j id' Hj Hid' Hel. apply eligible_spec in Hel.
    rewrite (Hbefore j id' Hj Hid') in Hel. done.
Qed.

Lemma firstEligible_unique cfg channel now vm id view id' view' :
  firstEligible cfg channel now vm id view ->
  firstEligible cfg channel now vm id' view' ->
  id = id' ∧ view = view'.
Proof.
  intros (i & Hi & Hv & Hs & Hb) (i' & Hi' & Hv' & Hs' & Hb').
  assert (i = i') as <-.
  { destruct (Nat.lt_trichotomy i i') as [Hlt | [? | Hlt]]; [| done |].
    - exfalso. apply (Hb' i id Hlt Hi). by exists view.
    - exfalso. apply (Hb i' id' Hlt Hi'). by exists view'. }
  assert (id = id') as <- by congruence. split; congruence.
Qed.

Lemma firstEligible_not_none cfg channel now vm id view :
  firstEligible cfg channel now vm id view -> ¬ noneEligible cfg channel now vm.
Proof.
  intros (i & Hi & Hv & Hs & _) Hnone.
  apply (Hnone id); [by eapply list_elem_of_lookup_2 | by exists view].
Qed.

(** The three ways [getCurrentView] goes for a channel. *)
Lemma getCurrentView_cases cfg channel now vm :
  truthy channel = true ->
  (exists viewId view, validCurrent cfg channel vm viewId view
      ∧ (isManuallyOverridden vm channel viewId = true ∨ isViewScheduled view now = true)
      ∧ getCurrentView cfg (Some channel) now vm = (Some view, vm))
  ∨ (fallsThrough cfg channel now vm
     ∧ getCurrentView cfg (Some channel) now vm = selectFirstScheduled cfg channel now vm).
Proof.
  intros Hc. unfold getCurrentView, truthyChannel. rewrite Hc.
  assert (Hnot : forall P : Prop, ¬ P ->
            (¬ exists viewId view, validCurrent cfg channel vm viewId view) ∨ P -> 
            fallsThrough cfg channel now vm) by (intros P HP [? | ?]; [by left | done]).
  destruct (channelCurrentViews vm !! channel) as [viewId|] eqn:Hcur.
  2:{ right. split; [| done]. left. intros (id & v & Hcur' & _). congruence. }
  destruct (truthy viewId) eqn:Htr; simpl.
  2:{ right. split; [| done]. left. intros (id & v & Hcur' & Hne & _).
      assert (id = viewId) as -> by congruence. apply truthy_spec in Hne. congruence. }
  destruct (has vm viewId) eqn:Hhas; simpl.
  2:{ right. split; [| done]. left. intros (id & v & Hcur' & _ & Hv & _).
      assert (id = viewId) as -> by congruence.
      assert (has vm viewId = true) by (apply has_spec; by eexists). congruence. }
  destruct (includes (getChannelViews cfg channel) viewId) eqn:Hinc.
  2:{ right. split; [| done]. left. intros (id & v & Hcur' & _ & _ & Hin).
      assert (id = viewId) as -> by congruence. apply includes_spec in Hin. congruence. }
  apply has_spec in Hhas as [view Hview]. rewrite Hview.
  assert (Hvalid : validCurrent cfg channel vm viewId view).
  { repeat split; try done; [by apply truthy_spec | by apply includes_spec]. }
  destruct (isManuallyOverridden vm channel viewId) eqn:Hov.
  { left. exists viewId, view. auto. }
  destruct (isViewScheduled view now) eqn:Hsch; simpl.
  { left. exists viewId, view. auto. }
  right. split; [| done]. right. exists viewId, view. auto.
Qed.

Lemma validCurrent_unique cfg channel vm id view id' view' :
  validCurrent cfg channel vm id view -> validCurrent cfg channel vm id' view' ->
  id = id' ∧ view = view'.
Proof.
  intros (H1 & _ & H2 & _) (H1' & _ & H2' & _).
  assert (id = id') as <- by congruence. split; congruence.
Qed.

(** C1. [getCurrentView(channel)] returns the current view without a schedule
    check when it is set, exists, is a member and is overridden, and returns
    it also when it is not overridden but eligible; when there is no valid
    current view, or it is neither overridden nor eligible, the result is the
    first member in configured order that exists and is eligible, and the
    absent result when there is none.  The call always returns. *)
Theorem getCurrentView_selection (cfg : ChannelConfig) (channel : string) (now : Date)
    (vm : ViewManager) :
  truthy channel = true ->
  let result := (getCurrentView cfg (Some channel) now vm).1 in
  (forall viewId view, validCurrent cfg channel vm viewId view ->
     isManuallyOverridden vm channel viewId = true -> result = Some view)
  ∧ (forall viewId view, validCurrent cfg channel vm viewId view ->
       isManuallyOverridden vm channel viewId = false ->
       isViewScheduled view now = true -> result = Some view)
  ∧ (fallsThrough cfg channel now vm ->
       (forall id view, firstEligible cfg channel now vm id view -> result = Some view)
       ∧ (noneEligible cfg channel now vm -> result = None)
       ∧ ((exists id view, firstEligible cfg channel now vm id view)
          ∨ noneEligible cfg channel now vm)).
Proof.
  intros Hc result. subst result.
  destruct (getCurrentView_cases cfg channel now vm Hc)
    as [(viewId & view & Hvalid & Hwhy & ->) | [Hfall ->]]; simpl.
  - split; [| split].
    + intros id v Hv _. by destruct (validCurrent_unique _ _ _ _ _ _ _ Hvalid Hv) as [_ ->].
    + intros id v Hv _ _. by destruct (validCurrent_unique _ _ _ _ _ _ _ Hvalid Hv) as [_ ->].
    + intros [Hno | (id & v & Hv & Hov & Hsch)].
      * exfalso. apply Hno. by exists viewId, view.
      * destruct (validCurrent_unique _ _ _ _ _ _ _ Hvalid Hv) as [<- <-].
        destruct Hwhy; congruence.
  - pose proof (selectFirstScheduled_spec cfg channel now vm) as Hsel.
    destruct (selectFirstScheduled cfg channel now vm) as [[view|] vm']; simpl.
    + destruct Hsel as (id & Hfirst & _).
      assert (Hthird :
        (forall id0 view0, firstEligible cfg channel now vm id0 view0 -> Some view = Some view0)
        ∧ (noneEligible cfg channel now vm -> Some view = None)
        ∧ ((exists id0 view0, firstEligible cfg channel now vm id0 view0)
           ∨ noneEligible cfg channel now vm)).
      { split; [| split].
        - intros id0 view0 H0.
          by destruct (firstEligible_unique _ _ _ _ _ _ _ _ Hfirst H0) as [_ ->].
        - intros Hnone. by apply firstEligible_not_none in Hfirst.
        - left. by exists id, view. }
      split; [| split; [| done]].
      * intros viewId v Hv Hov. destruct Hfall as [Hno | (id0 & v0 & Hv0 & Hov0 & _)].
        -- exfalso. apply Hno. by exists viewId, v.
        -- destruct (validCurrent_unique _ _ _ _ _ _ _ Hv Hv0) as [<- _]. congruence.
      * intros viewId v Hv _ Hsch. destruct Hfall as [Hno | (id0 & v0 & Hv0 & _ & Hsch0)].
        -- exfalso. apply Hno. by exists viewId, v.
        -- destruct (validCurrent_unique _ _ _ _ _ _ _ Hv Hv0) as [_ <-]. congruence.
    + destruct Hsel as [Hnone _].
      split; [| split; [| split; [| split]]].
      * intros viewId v Hv Hov. destruct Hfall as [Hno | (id0 & v0 & Hv0 & Hov0 & _)].
        -- exfalso. apply Hno. by exists viewId, v.
        -- destruct (validCurrent_unique _ _ _ _ _ _ _ Hv Hv0) as [<- _]. congruence.
      * intros viewId v Hv _ Hsch. destruct Hfall as [Hno | (id0 & v0 & Hv0 & _ & Hsch0)].
        -- exfalso. apply Hno. by exists viewId, v.
        -- destruct (validCurrent_unique _ _ _ _ _ _ _ Hv Hv0) as [_ <-]. congruence.
      * intros id view Hfirst. by apply firstEligible_not_none in Hfirst.
      * done.
      * by right.
Qed.

(** C10. [getCurrentView] changes nothing but the current-view pointer of
    the channel: no broadcast is started, no timer armed or cancelled, and the
    override set, the activation times and the views are as before.  When it
    falls through to re-selection and an eligible member exists, the pointer
    of the channel becomes the first such member. *)
Theorem getCurrentView_effects (cfg : ChannelConfig) (channel : option string) (now : Date)
    (vm : ViewManager) :
  let vm' := (getCurrentView cfg channel now vm).2 in
  (broadcasts vm' = broadcasts vm
   ∧ timers vm' = timers vm ∧ nextTimer vm' = nextTimer vm
   ∧ channelRotations vm' = channelRotations vm
   ∧ manualOverrides vm' = manualOverrides vm
   ∧ viewActivationTime vm' = viewActivationTime vm
   ∧ views vm' = views vm ∧ currentView vm' = currentView vm)
  ∧ (forall c id view,
       channel = Some c -> truthy c = true ->
       fallsThrough cfg c now vm -> firstEligible cfg c now vm id view ->
       channelCurrentViews vm' = <[c := id]> (channelCurrentViews vm)).
Proof.
  intros vm'. subst vm'. split.
  - assert (Hsel : forall c, let vm' := (selectFirstScheduled cfg c now vm).2 in
              broadcasts vm' = broadcasts vm
              ∧ timers vm' = timers vm ∧ nextTimer vm' = nextTimer vm
              ∧ channelRotations vm' = channelRotations vm
              ∧ manualOverrides vm' = manualOverrides vm
              ∧ viewActivationTime vm' = viewActivationTime vm
              ∧ views vm' = views vm ∧ currentView vm' = currentView vm).
    { intros c. unfold selectFirstScheduled. repeat case_match; done. }
    unfold getCurrentView. repeat case_match; try done; apply Hsel.
  - intros c id view -> Hc Hfall Hfirst.
    destruct (getCurrentView_cases cfg c now vm Hc)
      as [(viewId & v & Hvalid & Hwhy & _) | [_ ->]].
    + exfalso. destruct Hfall as [Hno | (id0 & v0 & Hv0 & Hov0 & Hsch0)].
      * apply Hno. by exists viewId, v.
      * destruct (validCurrent_unique _ _ _ _ _ _ _ Hvalid Hv0) as [<- <-].
        destruct Hwhy; congruence.
    + pose proof (selectFirstScheduled_spec cfg c now vm) as Hsel.
      destruct (selectFirstScheduled cfg c now vm) as [[v|] vm']; simpl.
      * destruct Hsel as (id0 & Hfirst0 & ->). simpl.
        by destruct (firstEligible_unique _ _ _ _ _ _ _ _ Hfirst Hfirst0) as [-> _].
      * destruct Hsel as [Hnone _]. by apply firstEligible_not_none in Hfirst.
Qed.

(** *** Arming the rotation timer *)

(** The delay with which [scheduleViewRotation] arms a timer, if it arms
    one: the view has metadata, its delay is positive, and at least two
    existing member views are eligible. *)
Definition armsTimer (cfg : ChannelConfig) (viewId channel : string) (now : Date)
    (vm : ViewManager) : option Z :=
  view ← views vm !! viewId;
  md ← metadata view;
  d ← rotationDelay md now;
  if (0 <? d) && (2 <=? length (existingScheduledViews cfg channel now vm))%nat
  then Some d else None.

(** The armed timeouts once the one recorded for the channel is cleared. *)
Definition cancelled (channel : string) (vm : ViewManager) : gmap nat Timer :=
  match channelRotations vm !! channel with
  | Some r => delete (timeout r) (timers vm)
  | None => timers vm
  end.

Lemma existingScheduledViews_ext cfg channel now vm1 vm2 :
  views vm1 = views vm2 ->
  existingScheduledViews cfg channel now vm1 = existingScheduledViews cfg channel now vm2.
Proof.
  intros H. unfold existingScheduledViews, has, scheduledNow. by rewrite H.
Qed.

Lemma armsTimer_ext cfg viewId channel now vm1 vm2 :
  views vm1 = views vm2 ->
  armsTimer cfg viewId channel now vm1 = armsTimer cfg viewId channel now vm2.
Proof.
  intros H. unfold armsTimer.
  by rewrite H, (existingScheduledViews_ext cfg channel now vm1 vm2 H).
Qed.

Lemma scheduleViewRotation_spec cfg viewId channel now vm :
  let vm' := scheduleViewRotation cfg viewId channel now vm in
  (currentView vm' = currentView vm
   ∧ channelCurrentViews vm' = channelCurrentViews vm
   ∧ viewActivationTime vm' = viewActivationTime vm
   ∧ views vm' = views vm
   ∧ manualOverrides vm' = manualOverrides vm
   ∧ broadcasts vm' = broadcasts vm)
  ∧ match armsTimer cfg viewId channel now vm with
    | Some d =>
        timers vm' = <[nextTimer vm := mkTimer viewId channel d]> (cancelled channel vm)
        ∧ channelRotations vm'
          = <[channel := mkRotation (nextTimer vm) d]> (channelRotations vm)
        ∧ nextTimer vm' = S (nextTimer vm)
    | None =>
        channelRotations vm' = channelRotations vm ∧ nextTimer vm' = nextTimer vm
        ∧ (timers vm' = timers vm ∨ timers vm' = cancelled channel vm)
    end.
Proof.
  unfold scheduleViewRotation, armsTimer, cancelled.
  destruct (views vm !! viewId) as [view|]; simpl; [| by auto 10].
  destruct (metadata view) as [md|]; simpl; [| by auto 10].
  set (vm1 := match channelRotations vm !! channel with
              | Some r => clearTimeout (timeout r) vm | None => vm end).
  assert (H1 : views vm1 = views vm ∧ currentView vm1 = currentView vm
               ∧ channelCurrentViews vm1 = channelCurrentViews vm
               ∧ viewActivationTime vm1 = viewActivationTime vm
               ∧ manualOverrides vm1 = manualOverrides vm
               ∧ broadcasts vm1 = broadcasts vm
               ∧ channelRotations vm1 = channelRotations vm
               ∧ nextTimer vm1 = nextTimer vm
               ∧ timers vm1 = match channelRotations vm !! channel with
                              | Some r => delete (timeout r) (timers vm)
                              | None => timers vm end).
  { subst vm1. by destruct (channelRotations vm !! channel). }
  destruct H1 as (Hv & H1a & H1b & H1c & H1d & H1e & H1f & H1g & H1h).
  rewrite (existingScheduledViews_ext cfg channel now vm1 vm Hv).
  destruct (rotationDelay md now) as [d|]; simpl; [| by rewrite H1h; auto 12].
  destruct (0 <? d); simpl; [| by rewrite H1h; auto 12].
  destruct (length (existingScheduledViews cfg channel now vm)) as [|[|n]] eqn:Hlen; simpl;
    try (by rewrite H1h; auto 12).
  rewrite H1f, H1g, H1h. auto 12.
Qed.

(** *** Setting the current view *)

Lemma lookup_setTime key0 key1 t m :
  exists inner, setTime key0 key1 t m !! key0 = Some inner ∧ inner !! key1 = Some t.
Proof.
  unfold setTime. eexists. rewrite lookup_insert_eq. split; [done |].
  by rewrite lookup_insert_eq.
Qed.

(** What [setCurrentView] does on a channel, case by case. *)
Lemma setCurrentView_outcome (cfg : ChannelConfig) (id channel : string)
    (isManualTrigger : bool) (now : Date) (vm : ViewManager) :
  truthy channel = true ->
  let outcome := setCurrentView cfg id (Some channel) isManualTrigger now vm in
  (* errors *)
  ((exists message vm', outcome = Throw message vm')
   <-> (views vm !! id = None ∨ id ∉ getChannelViews cfg channel))
  ∧ (forall message vm', outcome = Throw message vm' -> vm' = vm)
  (* success *)
  ∧ (forall vm', outcome = Ok vm' ->
       exists view,
         views vm !! id = Some view
         ∧ (exists times, viewActivationTime vm' !! channel = Some times
                          ∧ times !! id = Some (getTime now))
         ∧ manualOverrides vm'
           = (if isManualTrigger
              then setTime channel id (getTime now) (manualOverrides vm)
              else manualOverrides vm)
         ∧ (id <> "" ->
            isManualTrigger = true ∨ isManuallyOverridden vm channel id = true
            ∨ isViewScheduled view now = true ->
            channelCurrentViews vm' !! channel = Some id
            ∧ broadcasts vm' = broadcasts vm ++ [mkBroadcast channel view])
         ∧ (isManualTrigger = false -> isManuallyOverridden vm channel id = false ->
            isViewScheduled view now = false ->
            (forall id1 view1, firstEligible cfg channel now vm id1 view1 ->
               channelCurrentViews vm' !! channel = Some id1
               ∧ broadcasts vm' = broadcasts vm ++ [mkBroadcast channel view1])
            ∧ (noneEligible cfg channel now vm ->
               channelCurrentViews vm' !! channel = Some id
               ∧ broadcasts vm' = broadcasts vm))
         ∧ match armsTimer cfg id channel now vm with
           | Some d =>
               timers vm' = <[nextTimer vm := mkTimer id channel d]> (cancelled channel vm)
               ∧ channelRotations vm'
                 = <[channel := mkRotation (nextTimer vm) d]> (channelRotations vm)
           | None =>
               channelRotations vm' = channelRotations vm
               ∧ (timers vm' = timers vm ∨ timers vm' = cancelled channel vm)
           end).
Proof.
  intros Hc outcome. subst outcome. unfold setCurrentView, truthyChannel. rewrite Hc.
  destruct (views vm !! id) as [view|] eqn:Hview.
  2:{ split; [| split].
      - split; [by left | by eexists _, _].
      - by intros ? ? [= _ <-].
      - done. }
  destruct (includes (getChannelViews cfg channel) id) eqn:Hinc; simpl.
  2:{ assert (id ∉ getChannelViews cfg channel).
      { intros Hin. apply includes_spec in Hin. congruence. }
      split; [| split].
      - split; [by right | by eexists _, _].
      - by intros ? ? [= _ <-].
      - done. }
  apply includes_spec in Hinc.
  split; [| split; [done |]].
  { split; [by intros (? & ? & ?) | intros [? | ?]; done]. }
  intros vm' [= <-]. exists view. split; [done |].
  (* the state when broadcastViewChange is called *)
  set (vm2 := if isManualTrigger then _ else _).
  set (vm3 := with_channelCurrentViews _ vm2).
  assert (H3 : views vm3 = views vm ∧ broadcasts vm3 = broadcasts vm
               ∧ timers vm3 = timers vm ∧ nextTimer vm3 = nextTimer vm
               ∧ channelRotations vm3 = channelRotations vm
               ∧ viewActivationTime vm3
                 = setTime channel id (getTime now) (viewActivationTime vm)
               ∧ manualOverrides vm3
                 = (if isManualTrigger
                    then setTime channel id (getTime now) (manualOverrides vm)
                    else manualOverrides vm)
               ∧ channelCurrentViews vm3 = <[channel := id]> (channelCurrentViews vm)).
  { subst vm3 vm2. by destruct isManualTrigger. }
  destruct H3 as (Hv3 & Hb3 & Ht3 & Hn3 & Hr3 & Ha3 & Ho3 & Hp3).
  clearbody vm3. clear vm2.
  assert (Hov3 : isManuallyOverridden vm3 channel id
                 = isManualTrigger || isManuallyOverridden vm channel id).
  { unfold isManuallyOverridden. rewrite Ho3. destruct isManualTrigger; [| done]. simpl.
    destruct (lookup_setTime channel id (getTime now) (manualOverrides vm))
      as (inner & -> & Hin).
    apply bool_decide_eq_true. by eexists. }
  assert (Hfirst3 : forall id1 v1, firstEligible cfg channel now vm3 id1 v1
                                   <-> firstEligible cfg channel now vm id1 v1).
  { intros. unfold firstEligible, eligibleId. by rewrite Hv3. }
  assert (Hnone3 : noneEligible cfg channel now vm3 <-> noneEligible cfg channel now vm).
  { unfold noneEligible, eligibleId. by rewrite Hv3. }
  (* broadcastViewChange *)
  set (vm4 := broadcastViewChange cfg (Some channel) now vm3).
  assert (H4 : views vm4 = views vm ∧ timers vm4 = timers vm ∧ nextTimer vm4 = nextTimer vm
               ∧ channelRotations vm4 = channelRotations vm
               ∧ viewActivationTime vm4 = viewActivationTime vm3
               ∧ manualOverrides vm4 = manualOverrides vm3).
  { subst vm4. unfold broadcastViewChange, truthyChannel. rewrite Hc. simpl.
    destruct (getCurrentView_effects cfg (Some channel) now vm3)
      as ((E1 & E2 & E3 & E4 & E5 & E6 & E7 & E8) & _).
    destruct (getCurrentView cfg (Some channel) now vm3) as [[v|] vm0]; simpl in *;
      rewrite E2, E3, E4, E5, E6, E7, Hv3, Ht3, Hn3, Hr3; auto 10. }
  destruct H4 as (Hv4 & Ht4 & Hn4 & Hr4 & Ha4 & Ho4).
  assert (Hptr : (id <> "" ->
                  isManualTrigger = true ∨ isManuallyOverridden vm channel id = true
                  ∨ isViewScheduled view now = true ->
                  channelCurrentViews vm4 !! channel = Some id
                  ∧ broadcasts vm4 = broadcasts vm ++ [mkBroadcast channel view])
                 ∧ (isManualTrigger = false -> isManuallyOverridden vm channel id = false ->
                    isViewScheduled view now = false ->
                    (forall id1 view1, firstEligible cfg channel now vm id1 view1 ->
                       channelCurrentViews vm4 !! channel = Some id1
                       ∧ broadcasts vm4 = broadcasts vm ++ [mkBroadcast channel view1])
                    ∧ (noneEligible cfg channel now vm ->
                       channelCurrentViews vm4 !! channel = Some id
                       ∧ broadcasts vm4 = broadcasts vm))).
  { subst vm4. unfold broadcastViewChange, truthyChannel. rewrite Hc. simpl.
    destruct (getCurrentView_cases cfg channel now vm3 Hc)
      as [(viewId & v & Hvalid & Hwhy & ->) | [Hfall ->]].
    - destruct Hvalid as (Hcur & Hne & Hvv & _).
      rewrite Hp3, lookup_insert_eq in Hcur. injection Hcur as <-.
      rewrite Hv3, Hview in Hvv. injection Hvv as <-. simpl.
      rewrite Hp3, lookup_insert_eq, Hb3. split; [done |].
      intros -> Hnov Hnsch. rewrite Hov3, Hnov in Hwhy. simpl in Hwhy.
      destruct Hwhy; congruence.
    - pose proof (selectFirstScheduled_spec cfg channel now vm3) as Hsel.
      split.
      + intros Hne Hwhy. exfalso.
        assert (Hvalid : validCurrent cfg channel vm3 id view).
        { repeat split; try done; [by rewrite Hp3, lookup_insert_eq | by rewrite Hv3]. }
        destruct Hfall as [Hno | (id0 & v0 & Hv0 & Hov0 & Hsch0)].
        * apply Hno. by exists id, view.
        * destruct (validCurrent_unique _ _ _ _ _ _ _ Hvalid Hv0) as [<- <-].
          rewrite Hov3 in Hov0. apply orb_false_iff in Hov0 as [? ?].
          destruct Hwhy as [? | [? | ?]]; congruence.
      + intros _ _ _.
        destruct (selectFirstScheduled cfg channel now vm3) as [[v|] vm0]; simpl.
        * destruct Hsel as (id0 & Hfirst0 & ->). simpl. rewrite lookup_insert_eq, Hb3.
          apply Hfirst3 in Hfirst0. split.
          -- intros id1 view1 Hfirst1.
             by destruct (firstEligible_unique _ _ _ _ _ _ _ _ Hfirst0 Hfirst1) as [-> ->].
          -- intros Hnone. by apply firstEligible_not_none in Hfirst0.
        * destruct Hsel as [Hnone ->]. apply Hnone3 in Hnone. split.
          -- intros id1 view1 Hfirst1. by apply firstEligible_not_none in Hfirst1.
          -- intros _. by rewrite Hp3, lookup_insert_eq, Hb3. }
  (* scheduleViewRotation *)
  destruct (scheduleViewRotation_spec cfg id channel now vm4)
    as ((S1 & S2 & S3 & S4 & S5 & S6) & Harm).
  rewrite (armsTimer_ext cfg id channel now vm4 vm Hv4) in Harm.
  assert (Hcan : cancelled channel vm4 = cancelled channel vm).
  { unfold cancelled. by rewrite Hr4, Ht4. }
  rewrite Hcan, Hn4, Hr4, Ht4 in Harm.
  rewrite S3, S5, S2, S6, Ha4, Ho4, Ha3, Ho3.
  split; [apply lookup_setTime |]. split; [done |].
  split; [apply Hptr |]. split; [apply Hptr |].
  destruct (armsTimer cfg id channel now vm); tauto.
Qed.


(** *** The rotation timer fires *)

(** The view the rotation lands on from the start of the candidate list: the
    first candidate that is not an empty gallery. *)
Definition firstShowable (images : string -> option nat) (vm : ViewManager)
    (candidates : list string) : option string :=
  List.find (fun id => negb (isEmptyGallery images vm id)) candidates.

Lemma walk_find images vm (candidates : list string) :
  forall remaining nextIndex,
    (remaining + nextIndex = length candidates)%nat ->
    walk images vm candidates remaining nextIndex
    = firstShowable images vm (drop nextIndex candidates).
Proof.
  unfold firstShowable.
  induction remaining as [|n IH]; intros k Hk; simpl.
  - by rewrite drop_ge by lia.
  - destruct (candidates !! k) as [x|] eqn:Hx.
    2:{ apply lookup_ge_None in Hx. lia. }
    rewrite (drop_S _ _ _ Hx). simpl.
    destruct (isEmptyGallery images vm x); simpl; [| done].
    destruct (decide (S k = length candidates)) as [Heq | Hne].
    + assert (n = 0%nat) as -> by lia. simpl. by rewrite drop_ge by lia.
    + rewrite Nat.mod_small by lia. rewrite IH by lia. by rewrite Nat.add_1_r.
Qed.

Lemma indexOf_notin (l : list string) x : x ∉ l -> indexOf l x = -1.
Proof.
  induction l as [|y l IH]; simpl; [done |]. intros Hx.
  destruct (String.eqb y x) eqn:Heq.
  - apply String.eqb_eq in Heq. subst. set_solver.
  - rewrite IH by set_solver. done.
Qed.

Lemma elem_of_existingScheduledViews cfg channel now vm id :
  id ∈ existingScheduledViews cfg channel now vm
  <-> id ∈ getChannelViews cfg channel ∧ eligibleId vm now id.
Proof.
  unfold existingScheduledViews. rewrite filter_filter_andb, list_elem_of_In, filter_In.
  by rewrite eligible_spec, <- list_elem_of_In.
Qed.

Lemma isManuallyOverridden_clearOverride viewId channel vm :
  isManuallyOverridden (clearOverride viewId channel vm) channel viewId = false.
Proof.
  unfold clearOverride, isManuallyOverridden.
  destruct (manualOverrides vm !! channel) as [info|] eqn:Hinfo; [| by rewrite Hinfo].
  destruct (decide (size (delete viewId info) = 0%nat)); simpl.
  - by rewrite lookup_delete_eq.
  - rewrite lookup_insert_eq. apply bool_decide_eq_false. rewrite lookup_delete_eq.
    by intros [? ?].
Qed.

Lemma clearOverride_frame viewId channel vm :
  let vm' := clearOverride viewId channel vm in
  views vm' = views vm ∧ channelCurrentViews vm' = channelCurrentViews vm
  ∧ timers vm' = timers vm ∧ broadcasts vm' = broadcasts vm.
Proof. unfold clearOverride. repeat case_match; done. Qed.

Lemma isEmptyGallery_ext images vm1 vm2 id :
  views vm1 = views vm2 -> isEmptyGallery images vm1 id = isEmptyGallery images vm2 id.
Proof. intros H. unfold isEmptyGallery. by rewrite H. Qed.

Lemma firstShowable_ext images vm1 vm2 l :
  views vm1 = views vm2 -> firstShowable images vm1 l = firstShowable images vm2 l.
Proof.
  intros H. unfold firstShowable. induction l as [|x l IH]; [done |]. simpl.
  by rewrite (isEmptyGallery_ext images vm1 vm2 x H), IH.
Qed.


(** *** A lobby with three views *)

(** View A rotates after 60 s and is always eligible, view B is eligible
    from 09:00 to 10:00 only, view C has no rotation delay. *)
Definition example_view (id : string) (after : option Z) (sch : option Schedule) : View :=
  mkView id (Some (mkMetadata "text" after None sch)) [] 0.

Definition example_A : View := example_view "A" (Some 60000) None.
Definition example_B : View :=
  example_view "B" None (Some (mkSchedule None (Some (HoursArray [mkRange "09:00" "10:00"])))).
Definition example_C : View := example_view "C" None None.

Definition example_views : gmap string View :=
  <["A" := example_A]> (<["B" := example_B]> (<["C" := example_C]> ∅)).

Definition example_cfg (members : list string) : ChannelConfig :=
  mkConfig (Some {[ "lobby" := mkEntry (Some members) ]}).

(** A Tuesday, at [h]:[m]. *)
Definition example_time (h m : Z) : Date :=
  mkDate (1000 * 60 * (60 * h + m)) 2 h m 0 0.

Definition example_images (id : string) : option nat := Some 1%nat.

(** The lobby shows A under a manual override. *)
Definition example_overridden : ViewManager :=
  with_manualOverrides {[ "lobby" := {[ "A" := 0 ]} ]}
    (with_channelCurrentViews {[ "lobby" := "A" ]} (new example_views)).

Lemma getCurrentView_selection_witness :
  (getCurrentView (example_cfg ["A"; "B"; "C"]) (Some "lobby") (example_time 11 0)
                  example_overridden).1 = Some example_A.
Proof.
  destruct (getCurrentView_selection (example_cfg ["A"; "B"; "C"]) "lobby"
              (example_time 11 0) example_overridden eq_refl) as (Hov & _ & _).
  apply (Hov "A").
  - repeat split; [discriminate | set_solver].
  - reflexivity.
Defined.

Lemma getCurrentView_effects_witness :
  channelCurrentViews (getCurrentView (example_cfg ["B"; "C"; "A"]) (Some "lobby")
                                      (example_time 11 0) (new example_views)).2
  = <["lobby" := "C"]> (channelCurrentViews (new example_views)).
Proof.
  destruct (getCurrentView_effects (example_cfg ["B"; "C"; "A"]) (Some "lobby")
              (example_time 11 0) (new example_views)) as (_ & Hptr).
  apply Hptr with (view := example_C).
  - reflexivity.
  - reflexivity.
  - left. intros (viewId & view & Hcur & _). discriminate.
  - exists 1%nat. repeat split.
    intros [|j] id' Hj Hid' (v & Hv & Hs); [| lia].
    injection Hid' as <-. injection Hv as <-. discriminate.
Defined.





End ViewManager.
